(** * VoxaMind-AI web client: capture, playback queue and protocol session

    A shallow embedding of the TypeScript client
    ([client/web/microphone.ts], [client/web/audio-player.ts],
    [client/web/websocket.ts], [client/config.ts]) and the properties of
    its specification that concern sample conversion, silence-triggered
    flushing, the playback signals, the conversation state and the
    reconnect policy.

    JavaScript numbers are IEEE 754 binary64 values.  They are modelled by
    the executable IEEE specification of the standard library
    ([SpecFloat]), instantiated at precision 53 and maximal exponent 1024,
    so that every rounding the program performs is performed here too. *)

From Stdlib Require Import String ZArith List Bool Lia QArith Qminmax.
From Stdlib Require Import Floats.SpecFloat.
Import ListNotations.
Open Scope Z_scope.

(** ** JavaScript numbers and typed arrays *)

Module JS.

Definition number := spec_float.

Definition prec : Z := 53.
Definition emax : Z := 1024.

Definition NaN : number := S754_nan.

(** An integer literal (exact below 2^53). *)
Definition of_Z (z : Z) : number := binary_normalize prec emax z 0 false.

Definition add : number -> number -> number := SFadd prec emax.
Definition mul : number -> number -> number := SFmul prec emax.
Definition div : number -> number -> number := SFdiv prec emax.
Definition ltb : number -> number -> bool := SFltb.

(** [Math.sqrt]. *)
Definition Math_sqrt : number -> number := SFsqrt prec emax.

(** [Math.min] and [Math.max] of two arguments: NaN is contagious and
    the negative zero is smaller than the positive one. *)
Definition Math_min (a b : number) : number :=
  match SFcompare a b with
  | None => NaN
  | Some Lt => a
  | Some Gt => b
  | Some Eq =>
      match a, b with
      | S754_zero sa, S754_zero sb => S754_zero (sa || sb)
      | _, _ => a
      end
  end.

Definition Math_max (a b : number) : number :=
  match SFcompare a b with
  | None => NaN
  | Some Lt => b
  | Some Gt => a
  | Some Eq =>
      match a, b with
      | S754_zero sa, S754_zero sb => S754_zero (sa && sb)
      | _, _ => a
      end
  end.

(** The mathematical value of a finite number, as a rational. *)
Definition Q_of_finite (s : bool) (m : positive) (e : Z) : Q :=
  let mag :=
    match e with
    | Z0 => Zpos m # 1
    | Zpos p => (Zpos m * 2 ^ Zpos p) # 1
    | Zneg p => Zpos m # (2 ^ p)%positive
    end in
  if s then Qopp mag else mag.

Definition value (x : number) : option Q :=
  match x with
  | S754_zero _ => Some (0 # 1)
  | S754_finite s m e => Some (Q_of_finite s m e)
  | _ => None
  end.

(** Integer part of a number, rounding toward zero (0 for the values
    that have none). *)
Definition truncate (x : number) : Z :=
  match x with
  | S754_finite s m e =>
      let mag :=
        match e with
        | Z0 => Zpos m
        | Zpos p => Zpos m * 2 ^ Zpos p
        | Zneg p => Zpos m / 2 ^ Zpos p
        end in
      if s then - mag else mag
  | _ => 0
  end.

(** [ToInt16] of ECMAScript, the conversion applied by a store into an
    [Int16Array]: NaN, zeros and infinities give 0, any other number is
    truncated and wrapped modulo 2^16 into [-32768, 32767]. *)
Definition ToInt16 (x : number) : Z :=
  let int16bit := truncate x mod 65536 in
  if 32768 <=? int16bit then int16bit - 65536 else int16bit.

(** A [Float32Array] holds IEEE 754 binary32 values (precision 24,
    maximal exponent 128).  A store rounds the number to the nearest
    binary32 value, ties to even ([narrow]); a load reads the element
    back as a binary64 number, which is exact ([widen]). *)
Definition float32 := spec_float.

Definition narrow (x : number) : float32 :=
  match x with
  | S754_finite s m e => binary_round 24 128 s m e
  | _ => x
  end.

Definition widen (y : float32) : number :=
  match y with
  | S754_finite s m e => binary_round prec emax s m e
  | _ => y
  end.

(** Typed arrays are fixed-length sequences: of binary32 values for a
    [Float32Array], of integers of [-32768, 32767] for an [Int16Array],
    of bytes for an [ArrayBuffer]. *)
Definition Float32Array := list float32.
Definition Int16Array := list Z.
Definition ArrayBuffer := list Byte.byte.

(** [a[i] = v] on a typed array: a store outside the array is ignored. *)
Fixpoint store {A : Type} (i : nat) (v : A) (a : list A) : list A :=
  match a, i with
  | [], _ => []
  | _ :: t, O => v :: t
  | h :: t, S j => h :: store j v t
  end.

(** [a[i]] used as a number: [undefined] outside the array, which
    arithmetic turns into NaN. *)
Definition load (a : Float32Array) (i : nat) : number :=
  widen (nth i a NaN).

Definition load_int (a : Int16Array) (i : nat) : number :=
  match nth_error a i with
  | Some z => of_Z z
  | None => NaN
  end.

(** [for (let i = 0; i < n; i++) body], started at index [i]. *)
Fixpoint for_loop {A : Type} (n : nat) (i : nat) (body : nat -> A -> A)
  (acc : A) : A :=
  match n with
  | O => acc
  | S n' => for_loop n' (S i) body (body i acc)
  end.

(** [new Float32Array(n)] and [new Int16Array(n)]: zero-filled. *)
Definition new_Float32Array (n : nat) : Float32Array :=
  repeat (S754_zero false) n.
Definition new_Int16Array (n : nat) : Int16Array := repeat 0 n.

(** A 16-bit element read from two bytes, least significant first. *)
Definition int16_of_bytes (lo hi : Byte.byte) : Z :=
  let u := Z.of_N (Byte.to_N lo) + 256 * Z.of_N (Byte.to_N hi) in
  if 32768 <=? u then u - 65536 else u.

(** [new Int16Array(buffer)]: a view of the bytes; a RangeError ([None])
    when the byte length is odd. *)
Fixpoint Int16Array_of_buffer (data : ArrayBuffer) : option Int16Array :=
  match data with
  | [] => Some []
  | [_] => None
  | lo :: hi :: rest =>
      match Int16Array_of_buffer rest with
      | Some a => Some (int16_of_bytes lo hi :: a)
      | None => None
      end
  end.

(** [typed.buffer] of an [Int16Array]: its bytes, least significant
    first. *)
Definition byte_of_Z (z : Z) : Byte.byte :=
  match Byte.of_N (Z.to_N (z mod 256)) with
  | Some b => b
  | None => Byte.x00
  end.

Definition buffer_of_Int16Array (a : Int16Array) : ArrayBuffer :=
  flat_map (fun z => [byte_of_Z z; byte_of_Z ((z mod 65536) / 256)]) a.

End JS.

(** ** Configuration ([client/config.ts]) *)

Module CONFIG.
Definition SAMPLE_RATE : Z := 16000.
Definition CHANNELS : Z := 1.
Definition CHUNK_SIZE : Z := 4096.
(** The literal [0.01]: the binary64 number nearest to 1/100. *)
Definition SILENCE_THRESHOLD : JS.number := JS.div (JS.of_Z 1) (JS.of_Z 100).
Definition SILENCE_DURATION_MS : Z := 1200.
Definition RECONNECT_DELAY_MS : Z := 2000.
Definition MAX_RECONNECT_ATTEMPTS : nat := 5.
Definition FORMAT : string := "pcm16".
Definition WS_URL : string := "ws://localhost:8000/ws/audio".
End CONFIG.

(** ** Silence-aware capture ([MicrophoneCapture]) *)

Module MicrophoneCapture.
Import JS.

(** The [silenceTimer] field.  It is [null], or it holds the handle of a
    timer that is still [pending], or the handle of a timer whose
    callback has already run ([expired]): the callback does not reset the
    field, and a handle is a truthy value either way. *)
Inductive TimerRef := null | pending | expired.

Definition truthy (r : TimerRef) : bool :=
  match r with null => false | _ => true end.

(** The capture object.  [mediaStream] stands for the device stream and
    the audio graph built on it (context, source, analyser and processor
    nodes), which [start] acquires and [stop] releases together. *)
Record t := mk {
  mediaStream : bool;
  isRecording : bool;
  silenceTimer : TimerRef;
  audioBuffer : list Float32Array
}.

(** Calls of the [MicrophoneOptions] callbacks, in the order made. *)
Inductive signal :=
| onAudioChunk (chunk : Float32Array) (timestamp : Z)
| onSilence (audioBuffer : Float32Array)
| onError (message : string).

(** [new MicrophoneCapture(options)]. *)
Definition new : t := mk false false null [].

(** Outcome of [navigator.mediaDevices.getUserMedia]. *)
Inductive MediaResult := granted | denied (message : string).

(** [start()] from the point where the device request it awaits has
    settled, with the outcome of the request.  The boolean tells whether
    the promise that [start()] has returned is fulfilled.  The fields are
    read when the request settles: [stop()] may have run in between. *)
Definition acquire (m : t) (device : MediaResult) : t * list signal * bool :=
  match device with
  | granted => (mk true true (silenceTimer m) (audioBuffer m), [], true)
  | denied message => (m, [onError message], false)
  end.

(** [start()] with nothing happening while it awaits the device: it
    returns at once on an object that records already. *)
Definition start (m : t) (device : MediaResult) : t * list signal * bool :=
  if isRecording m then (m, [], true) else acquire m device.

Definition calculateRMS (buffer : Float32Array) : number :=
  let sum :=
    for_loop (length buffer) 0
      (fun i sum => add sum (mul (load buffer i) (load buffer i)))
      (of_Z 0) in
  Math_sqrt (div sum (of_Z (Z.of_nat (length buffer)))).

(** [target.set(source, offset)]: a RangeError ([None]) when the source
    does not fit. *)
Definition set (target source : Float32Array) (offset : nat)
  : option Float32Array :=
  if (offset + length source <=? length target)%nat
  then Some (firstn offset target ++ source
             ++ skipn (offset + length source) target)
  else None.

(** The merge of [flushBuffer]: the total length by [reduce], a zeroed
    array of that length, and every chunk copied at the running offset. *)
Definition merge (chunks : list Float32Array) : option Float32Array :=
  let totalLength :=
    fold_left (fun acc chunk => (acc + length chunk)%nat) chunks O in
  let merged := new_Float32Array totalLength in
  match
    fold_left
      (fun st chunk =>
         match st with
         | Some (merged, offset) =>
             match set merged chunk offset with
             | Some merged' => Some (merged', (offset + length chunk)%nat)
             | None => None
             end
         | None => None
         end)
      chunks (Some (merged, O))
  with
  | Some (merged, _) => Some merged
  | None => None
  end.

(** [flushBuffer()].  The [None] branch of [merge] would be an exception
    escaping before the buffer is reset; it never happens
    (lemma [merge_concat]). *)
Definition flushBuffer (m : t) : t * list signal :=
  match audioBuffer m with
  | [] => (m, [])
  | _ :: _ =>
      match merge (audioBuffer m) with
      | Some merged =>
          (mk (mediaStream m) (isRecording m) (silenceTimer m) [],
           [onSilence merged])
      | None => (m, [])
      end
  end.

(** The [onaudioprocess] handler installed by [start], for one block of
    input samples delivered at time [now]. *)
Definition onaudioprocess (m : t) (inputData : Float32Array) (now : Z)
  : t * list signal :=
  if negb (isRecording m) then (m, [])
  else
    let chunk := inputData in
    let buffered := audioBuffer m ++ [chunk] in
    let rms := calculateRMS chunk in
    let timer :=
      if ltb rms CONFIG.SILENCE_THRESHOLD
      then (if negb (truthy (silenceTimer m)) then pending
            else silenceTimer m)
      else null in
    (mk (mediaStream m) (isRecording m) timer buffered,
     [onAudioChunk chunk now]).

(** The callback given to [setTimeout]: it runs only for a pending
    timer, whose handle then stays in the field. *)
Definition onSilenceTimeout (m : t) : t * list signal :=
  match silenceTimer m with
  | pending =>
      flushBuffer (mk (mediaStream m) (isRecording m) expired (audioBuffer m))
  | _ => (m, [])
  end.

(** [stop()]. *)
Definition stop (m : t) : t * list signal :=
  let '(m', signals) :=
    flushBuffer (mk (mediaStream m) false null (audioBuffer m)) in
  (mk false (isRecording m') (silenceTimer m') (audioBuffer m'), signals).

(** One sample of [float32ToInt16]: the value stored into [out[i]]. *)
Definition float32ToInt16_sample (x : number) : Z :=
  let s := Math_max (of_Z (-1)) (Math_min (of_Z 1) x) in
  ToInt16 (if ltb s (of_Z 0) then mul s (of_Z 32768) else mul s (of_Z 32767)).

(** [static float32ToInt16(buffer)]. *)
Definition float32ToInt16 (buffer : Float32Array) : Int16Array :=
  for_loop (length buffer) 0
    (fun i out => store i (float32ToInt16_sample (load buffer i)) out)
    (new_Int16Array (length buffer)).


(** Inputs of a capture object: a block of samples with its arrival
    time, or the end of the silence delay. *)
Inductive event :=
| Chunk (inputData : Float32Array) (now : Z)
| Timeout.

Definition step (m : t) (e : event) : t * list signal :=
  match e with
  | Chunk inputData now => onaudioprocess m inputData now
  | Timeout => onSilenceTimeout m
  end.


(** The capture object and the callbacks made after a sequence of
    events. *)
Fixpoint run (m : t) (es : list event) : t * list signal :=
  match es with
  | [] => (m, [])
  | e :: es' =>
      let '(m1, s1) := step m e in
      let '(m2, s2) := run m1 es' in
      (m2, s1 ++ s2)
  end.


End MicrophoneCapture.

(** ** Playback queue ([AudioPlayer]) *)

Module AudioPlayer.
Import JS.

(** A platform [AudioBuffer] with one channel. *)
Record AudioBuffer := mkBuffer {
  sampleRate : Z;
  channelData : Float32Array
}.

(** The player.  [currentSource] is the source node being played,
    identified with the buffer it plays; [gain] is [gainNode.gain.value]. *)
Record t := mk {
  queue : list AudioBuffer;
  isPlaying : bool;
  currentSource : option AudioBuffer;
  gain : float32
}.

(** Calls of the [AudioPlayerOptions] callbacks, in the order made. *)
Inductive signal := onPlaybackStart | onPlaybackEnd.

(** [new AudioPlayer(options)]; a gain node starts at 1. *)
Definition new : t := mk [] false None (narrow (of_Z 1)).

(** [audioContext.createBuffer(1, length, sampleRate)] followed by
    [copyToChannel]: a NotSupportedError ([None]) for a buffer of no
    frame.  The platform's bounds on the sample rate are not modelled. *)
Definition createBuffer (samples : Float32Array) (rate : Z)
  : option AudioBuffer :=
  match samples with
  | [] => None
  | _ :: _ => Some (mkBuffer rate samples)
  end.

(** [playNext()]. *)
Definition playNext (p : t) : t * list signal :=
  match queue p with
  | [] => (mk [] false (currentSource p) (gain p), [onPlaybackEnd])
  | buffer :: rest =>
      (mk rest true (Some buffer) (gain p),
       match rest with
       | [] => [onPlaybackStart]
       | _ :: _ => []
       end)
  end.

(** The decoding loop of [queueAudio]: [float32[i] = int16[i] / 32768.0]. *)
Definition decode_sample (v : number) : float32 :=
  narrow (div v (of_Z 32768)).

Definition decode (int16 : Int16Array) : Float32Array :=
  for_loop (length int16) 0
    (fun i float32 => store i (decode_sample (load_int int16 i)) float32)
    (new_Float32Array (length int16)).

(** The default value of the [sampleRate] parameter of [queueAudio]. *)
Definition default_sampleRate : Z := 22050.

(** [queueAudio(data, sampleRate = 22050)].  The function is [async] but
    awaits nothing: its body runs within the call, and an exception
    ([Int16Array] over an odd number of bytes, empty buffer) rejects the
    returned promise and leaves the player as it was. *)
Definition queueAudio (p : t) (data : ArrayBuffer) (sampleRate : option Z)
  : t * list signal :=
  let rate :=
    match sampleRate with
    | Some r => r
    | None => default_sampleRate
    end in
  match Int16Array_of_buffer data with
  | None => (p, [])
  | Some int16 =>
      match createBuffer (decode int16) rate with
      | None => (p, [])
      | Some audioBuffer =>
          let p' := mk (queue p ++ [audioBuffer]) (isPlaying p)
                       (currentSource p) (gain p) in
          if negb (isPlaying p') then playNext p' else (p', [])
      end
  end.

(** [queueBlob(blob)], from the moment the platform decoder has produced
    [audioBuffer]. *)
Definition queueBlob (p : t) (audioBuffer : AudioBuffer) : t * list signal :=
  let p' := mk (queue p ++ [audioBuffer]) (isPlaying p)
               (currentSource p) (gain p) in
  if negb (isPlaying p') then playNext p' else (p', []).

(** The [onended] handler given to every source node. *)
Definition onended (p : t) : t * list signal :=
  playNext (mk (queue p) (isPlaying p) None (gain p)).

(** [stop()]. *)
Definition stop (p : t) : t := mk [] false None (gain p).

(** [setVolume(volume)]. *)
Definition setVolume (p : t) (volume : number) : t :=
  mk (queue p) (isPlaying p) (currentSource p)
     (narrow (Math_max (of_Z 0) (Math_min (of_Z 1) volume))).

(** Inputs of the player that the playback signals depend on: a call of
    [queueAudio], and the end of the source node being played. *)
Inductive event :=
| Enqueue (data : ArrayBuffer) (sampleRate : option Z)
| Ended.

Definition step (p : t) (e : event) : t * list signal :=
  match e with
  | Enqueue data sampleRate => queueAudio p data sampleRate
  | Ended => onended p
  end.

(** The player and the signals fired after a sequence of events. *)
Fixpoint run (p : t) (es : list event) : t * list signal :=
  match es with
  | [] => (p, [])
  | e :: es' =>
      let '(p1, s1) := step p e in
      let '(p2, s2) := run p1 es' in
      (p2, s1 ++ s2)
  end.

(** The segments held by the player, in the order they are played. *)
Definition segments (p : t) : list AudioBuffer :=
  match currentSource p with
  | Some b => b :: queue p
  | None => queue p
  end.

(** A player that is not playing holds nothing. *)
Definition settled (p : t) : Prop :=
  isPlaying p = false -> queue p = [] /\ currentSource p = None.

End AudioPlayer.

(** ** Protocol session ([VoiceAgentWebSocket]) *)

Module VoiceAgentWebSocket.
Import JS.

Inductive ConversationState := idle | listening | processing | speaking.

Definition state_eqb (a b : ConversationState) : bool :=
  match a, b with
  | idle, idle | listening, listening
  | processing, processing | speaking, speaking => true
  | _, _ => false
  end.

(** [WebSocket.readyState]. *)
Inductive ReadyState := CONNECTING | OPEN | CLOSING | CLOSED.

(** Control messages the client sends. *)
Inductive Outbound :=
| send_session_start (format : string) (sample_rate : Z)
| send_audio_end (timestamp : Z)
| send_ping (timestamp : Z).

(** Control messages the client receives, with the payload each case of
    [handleMessage] reads.  [audio] is the byte string that [atob] yields;
    [sample_rate] is absent ([None]) when the payload has no such field.
    [unhandled] stands for the message types that have no case
    ([audio_chunk], [audio_end], [ping], [session_end]). *)
Inductive Inbound :=
| session_start (session_id : string)
| transcript (text : string) (is_final : bool)
| response_text (text : string) (is_final : bool)
| response_audio (audio : ArrayBuffer) (sample_rate : option Z)
| response_audio_end
| error (message : string)
| pong
| unhandled.

(** [event.data] of a message event: a binary frame, or a text frame
    with the result of reading it ([None] when [JSON.parse] or a field
    access throws inside the [try] block). *)
Inductive MessageData :=
| Binary (data : ArrayBuffer)
| Text (message : option Inbound).

(** What the session does to the outside, in the order done: calls of
    the [VoiceAgentCallbacks], frames sent on a socket, sockets and
    reconnect timers created, console output. *)
Inductive Effect :=
| onTranscript (text : string) (is_final : bool)
| onResponseText (text : string) (is_final : bool)
| onConnected
| onDisconnected
| onError (message : string)
| onStateChange (state : ConversationState)
| send_json (socket : nat) (message : Outbound)
| send_binary (socket : nat) (data : ArrayBuffer)
| new_WebSocket (url : string)
| setTimeout_reconnect (delay : Z)
| console_error.

(** The session object together with the part of the host it acts on.
    [ws] names a socket by its index in [sockets], the sockets created
    so far with their ready states.  [pingInterval] tells whether the
    field holds an interval handle; [intervals] counts the intervals
    that are armed, [reconnectTimers] the reconnect delays that are
    running.  [now] is the value of [Date.now()].

    [captures] holds every capture object that [startListening] has
    created, in the order of creation, and [microphone] names one of them
    by its index: an object that the field no longer refers to is still
    there, with its audio graph, its timer and its callbacks.
    [resuming] counts the calls of [startListening] that await
    [audioPlayer.resume()], and [acquiring] lists the capture objects
    whose [start()] awaits the device. *)
Record t := mk {
  ws : option nat;
  microphone : option nat;
  audioPlayer : AudioPlayer.t;
  sessionId : option string;
  reconnectAttempts : nat;
  pingInterval : bool;
  state : ConversationState;
  sockets : list ReadyState;
  intervals : nat;
  reconnectTimers : nat;
  now : Z;
  log : list Effect;
  captures : list MicrophoneCapture.t;
  resuming : nat;
  acquiring : list nat
}.

(** [new VoiceAgentWebSocket(callbacks)] at time [now]. *)
Definition new (now : Z) : t :=
  mk None None AudioPlayer.new None O false idle [] O O now [] [] O [].

Definition set_ws (v : option nat) (w : t) : t :=
  mk v (microphone w) (audioPlayer w) (sessionId w) (reconnectAttempts w)
     (pingInterval w) (state w) (sockets w) (intervals w)
     (reconnectTimers w) (now w) (log w)
     (captures w) (resuming w) (acquiring w).

Definition set_microphone (v : option nat) (w : t) : t :=
  mk (ws w) v (audioPlayer w) (sessionId w) (reconnectAttempts w)
     (pingInterval w) (state w) (sockets w) (intervals w)
     (reconnectTimers w) (now w) (log w)
     (captures w) (resuming w) (acquiring w).

Definition set_audioPlayer (v : AudioPlayer.t) (w : t) : t :=
  mk (ws w) (microphone w) v (sessionId w) (reconnectAttempts w)
     (pingInterval w) (state w) (sockets w) (intervals w)
     (reconnectTimers w) (now w) (log w)
     (captures w) (resuming w) (acquiring w).

Definition set_sessionId (v : option string) (w : t) : t :=
  mk (ws w) (microphone w) (audioPlayer w) v (reconnectAttempts w)
     (pingInterval w) (state w) (sockets w) (intervals w)
     (reconnectTimers w) (now w) (log w)
     (captures w) (resuming w) (acquiring w).

Definition set_reconnectAttempts (v : nat) (w : t) : t :=
  mk (ws w) (microphone w) (audioPlayer w) (sessionId w) v
     (pingInterval w) (state w) (sockets w) (intervals w)
     (reconnectTimers w) (now w) (log w)
     (captures w) (resuming w) (acquiring w).

Definition set_ping (v : bool) (n : nat) (w : t) : t :=
  mk (ws w) (microphone w) (audioPlayer w) (sessionId w)
     (reconnectAttempts w) v (state w) (sockets w) n
     (reconnectTimers w) (now w) (log w)
     (captures w) (resuming w) (acquiring w).

Definition set_state (v : ConversationState) (w : t) : t :=
  mk (ws w) (microphone w) (audioPlayer w) (sessionId w)
     (reconnectAttempts w) (pingInterval w) v (sockets w) (intervals w)
     (reconnectTimers w) (now w) (log w)
     (captures w) (resuming w) (acquiring w).

Definition set_sockets (v : list ReadyState) (w : t) : t :=
  mk (ws w) (microphone w) (audioPlayer w) (sessionId w)
     (reconnectAttempts w) (pingInterval w) (state w) v (intervals w)
     (reconnectTimers w) (now w) (log w)
     (captures w) (resuming w) (acquiring w).

Definition set_reconnectTimers (v : nat) (w : t) : t :=
  mk (ws w) (microphone w) (audioPlayer w) (sessionId w)
     (reconnectAttempts w) (pingInterval w) (state w) (sockets w)
     (intervals w) v (now w) (log w)
     (captures w) (resuming w) (acquiring w).

(** Time passing on the host. *)
Definition set_now (v : Z) (w : t) : t :=
  mk (ws w) (microphone w) (audioPlayer w) (sessionId w)
     (reconnectAttempts w) (pingInterval w) (state w) (sockets w)
     (intervals w) (reconnectTimers w) v (log w)
     (captures w) (resuming w) (acquiring w).

Definition emit (e : Effect) (w : t) : t :=
  mk (ws w) (microphone w) (audioPlayer w) (sessionId w)
     (reconnectAttempts w) (pingInterval w) (state w) (sockets w)
     (intervals w) (reconnectTimers w) (now w) (log w ++ [e])
     (captures w) (resuming w) (acquiring w).

Definition set_captures (v : list MicrophoneCapture.t) (w : t) : t :=
  mk (ws w) (microphone w) (audioPlayer w) (sessionId w)
     (reconnectAttempts w) (pingInterval w) (state w) (sockets w)
     (intervals w) (reconnectTimers w) (now w) (log w)
     v (resuming w) (acquiring w).

Definition set_resuming (v : nat) (w : t) : t :=
  mk (ws w) (microphone w) (audioPlayer w) (sessionId w)
     (reconnectAttempts w) (pingInterval w) (state w) (sockets w)
     (intervals w) (reconnectTimers w) (now w) (log w)
     (captures w) v (acquiring w).

Definition set_acquiring (v : list nat) (w : t) : t :=
  mk (ws w) (microphone w) (audioPlayer w) (sessionId w)
     (reconnectAttempts w) (pingInterval w) (state w) (sockets w)
     (intervals w) (reconnectTimers w) (now w) (log w)
     (captures w) (resuming w) v.

(** The capture object that [this.microphone] refers to. *)
Definition capture (w : t) : option MicrophoneCapture.t :=
  match microphone w with
  | Some i => nth_error (captures w) i
  | None => None
  end.

(** [this.ws?.readyState === WebSocket.OPEN], with the socket. *)
Definition open_socket (w : t) : option nat :=
  match ws w with
  | Some i =>
      match nth_error (sockets w) i with
      | Some OPEN => Some i
      | _ => None
      end
  | None => None
  end.

Definition sendJSON (message : Outbound) (w : t) : t :=
  match open_socket w with
  | Some i => emit (send_json i message) w
  | None => w
  end.

Definition sendBinary (data : ArrayBuffer) (w : t) : t :=
  match open_socket w with
  | Some i => emit (send_binary i data) w
  | None => w
  end.

Definition startPing (w : t) : t := set_ping true (S (intervals w)) w.

Definition stopPing (w : t) : t :=
  if pingInterval w then set_ping false (Nat.pred (intervals w)) w else w.

(** The callback of [setInterval] in [startPing]. *)
Definition onPingInterval (w : t) : t :=
  match intervals w with
  | O => w
  | S _ => sendJSON (send_ping (now w)) w
  end.

Definition setState (s : ConversationState) (w : t) : t :=
  if state_eqb (state w) s then w
  else emit (onStateChange s) (set_state s w).

(** The callbacks the constructor gives to the player. *)
Definition player_signal (w : t) (s : AudioPlayer.signal) : t :=
  match s with
  | AudioPlayer.onPlaybackStart => setState speaking w
  | AudioPlayer.onPlaybackEnd => setState idle w
  end.

Definition with_player (r : AudioPlayer.t * list AudioPlayer.signal)
  (w : t) : t :=
  fold_left player_signal (snd r) (set_audioPlayer (fst r) w).

(** The callbacks [startListening] gives to the capture object. *)
Definition microphone_signal (w : t) (s : MicrophoneCapture.signal) : t :=
  match s with
  | MicrophoneCapture.onAudioChunk chunk timestamp =>
      match open_socket w with
      | None => w
      | Some _ =>
          let int16 := MicrophoneCapture.float32ToInt16 chunk in
          sendBinary (buffer_of_Int16Array int16) w
      end
  | MicrophoneCapture.onSilence audioBuffer =>
      setState processing (sendJSON (send_audio_end (now w)) w)
  | MicrophoneCapture.onError message => emit (onError message) w
  end.

(** A step of the capture object [i], with the callbacks it makes.
    The callbacks are those that [startListening] gave to the object:
    they act on the session whether or not [this.microphone] still
    refers to the object. *)
Definition set_capture (i : nat) (m : MicrophoneCapture.t) (w : t) : t :=
  set_captures (store i m (captures w)) w.

Definition with_capture (i : nat)
  (r : MicrophoneCapture.t * list MicrophoneCapture.signal) (w : t) : t :=
  fold_left microphone_signal (snd r) (set_capture i (fst r) w).

Definition handleAudioChunk (data : ArrayBuffer) (w : t) : t :=
  with_player (AudioPlayer.queueAudio (audioPlayer w) data None) w.

Definition handleMessage (event : MessageData) (w : t) : t :=
  match event with
  | Binary data => handleAudioChunk data w
  | Text None => emit console_error w
  | Text (Some message) =>
      match message with
      | session_start session_id => set_sessionId (Some session_id) w
      | transcript text is_final =>
          let w := emit (onTranscript text is_final) w in
          if is_final then setState processing w else w
      | response_text text is_final => emit (onResponseText text is_final) w
      | response_audio audio sample_rate =>
          with_player
            (AudioPlayer.queueAudio (audioPlayer w) audio sample_rate) w
      | response_audio_end => w
      | error message => setState idle (emit (onError message) w)
      | pong => w
      | unhandled => w
      end
  end.

(** [startListening()] runs in three steps, and other events can take
    place between them.  The first step is the call, up to
    [await this.audioPlayer.resume()], which acts on the audio context
    only. *)
Definition startListening_call (w : t) : t :=
  set_resuming (S (resuming w)) w.

(** What [startListening()] does once [microphone.start()] is
    fulfilled. *)
Definition started (w : t) : t :=
  sendJSON (send_session_start CONFIG.FORMAT CONFIG.SAMPLE_RATE)
    (setState listening w).

(** The second step, when [audioPlayer.resume()] has settled for a call
    that awaits it: playback is stopped, and a new capture object is put
    into [this.microphone].  The object that the field referred to is not
    stopped; it stays among [captures] as it is.  Then [start()] of the
    new object is called: it returns at once if the object records, and
    asks for the device otherwise. *)
Definition onResumed (w : t) : t :=
  match resuming w with
  | O => w
  | S n =>
      let w := set_resuming n w in
      let w := set_audioPlayer (AudioPlayer.stop (audioPlayer w)) w in
      let i := length (captures w) in
      let m := MicrophoneCapture.new in
      let w := set_microphone (Some i) (set_captures (captures w ++ [m]) w) in
      if MicrophoneCapture.isRecording m then started w
      else set_acquiring (acquiring w ++ [i]) w
  end.

(** The third step, when the device request of the capture object [i]
    has settled: [start()] goes on with the object as it is by then, and
    when it is fulfilled so does the call of [startListening()] that
    awaits it, whatever [this.microphone] refers to by then.  On a
    refusal the capture object reports the error and the call is
    rejected. *)
Definition onDevice (i : nat) (device : MicrophoneCapture.MediaResult)
  (w : t) : t :=
  if existsb (Nat.eqb i) (acquiring w) then
    match nth_error (captures w) i with
    | Some m =>
        let '(m', signals, fulfilled) := MicrophoneCapture.acquire m device in
        let w :=
          set_acquiring
            (filter (fun j => negb (Nat.eqb i j)) (acquiring w)) w in
        let w := with_capture i (m', signals) w in
        if fulfilled then started w else w
    | None => w
    end
  else w.

(** A call of [startListening()] that no other event interrupts, with
    the outcome of the device request. *)
Definition startListening (device : MicrophoneCapture.MediaResult) (w : t)
  : t :=
  onDevice (length (captures w)) device (onResumed (startListening_call w)).

(** [stopListening()]: [stop()] of the capture object that
    [this.microphone] refers to, if any; no other capture object is
    touched. *)
Definition stopListening (w : t) : t :=
  let w :=
    match microphone w with
    | Some i =>
        match nth_error (captures w) i with
        | Some m => with_capture i (MicrophoneCapture.stop m) w
        | None => w
        end
    | None => w
    end in
  let w := set_microphone None w in
  if state_eqb (state w) listening then setState idle w else w.

(** The events of the capture object [i], as they reach the session:
    a block of samples from its audio graph, and the end of its silence
    delay. *)
Definition onaudioprocess (i : nat) (inputData : Float32Array) (w : t) : t :=
  match nth_error (captures w) i with
  | Some m =>
      with_capture i (MicrophoneCapture.onaudioprocess m inputData (now w)) w
  | None => w
  end.

Definition onSilenceTimeout (i : nat) (w : t) : t :=
  match nth_error (captures w) i with
  | Some m => with_capture i (MicrophoneCapture.onSilenceTimeout m) w
  | None => w
  end.

(** The end of the source node being played. *)
Definition onended (w : t) : t :=
  with_player (AudioPlayer.onended (audioPlayer w)) w.

(** [connect()]: a new socket, which the session now refers to. *)
Definition connect (w : t) : t :=
  let i := length (sockets w) in
  set_ws (Some i)
    (set_sockets (sockets w ++ [CONNECTING])
       (emit (new_WebSocket CONFIG.WS_URL) w)).

(** [attemptReconnect()] up to the delay it awaits. *)
Definition attemptReconnect (w : t) : t :=
  if (CONFIG.MAX_RECONNECT_ATTEMPTS <=? reconnectAttempts w)%nat then w
  else
    emit (setTimeout_reconnect CONFIG.RECONNECT_DELAY_MS)
      (set_reconnectTimers (S (reconnectTimers w))
         (set_reconnectAttempts (S (reconnectAttempts w)) w)).

(** [attemptReconnect()] after the delay: a running delay ends and
    [connect()] is called; a failure of that call is swallowed. *)
Definition onReconnectTimeout (w : t) : t :=
  match reconnectTimers w with
  | O => w
  | S n => connect (set_reconnectTimers n w)
  end.

Definition set_readyState (i : nat) (r : ReadyState) (w : t) : t :=
  set_sockets (store i r (sockets w)) w.

(** The handlers [connect()] installs on socket [i]. *)
Definition onopen (i : nat) (w : t) : t :=
  let w := set_readyState i OPEN w in
  emit onConnected (startPing (set_reconnectAttempts O w)).

Definition onerror (i : nat) (w : t) : t := emit console_error w.

Definition onclose (i : nat) (w : t) : t :=
  let w := set_readyState i CLOSED w in
  attemptReconnect (emit onDisconnected (stopPing w)).

Definition onmessage (i : nat) (event : MessageData) (w : t) : t :=
  handleMessage event w.

(** [socket.close()]: a socket that is connecting or open starts
    closing; its close event follows later. *)
Definition close (i : nat) (w : t) : t :=
  match nth_error (sockets w) i with
  | Some CONNECTING | Some OPEN => set_readyState i CLOSING w
  | _ => w
  end.

Definition disconnect (w : t) : t :=
  let w := stopListening (stopPing w) in
  let w :=
    match ws w with
    | Some i => close i w
    | None => w
    end in
  set_ws None w.

(** Everything that can happen to a session. *)
Inductive event :=
| Connect
| Disconnect
| StartListening
| Resumed
| Device (i : nat) (device : MicrophoneCapture.MediaResult)
| StopListening
| SocketOpen (i : nat)
| SocketError (i : nat)
| SocketClose (i : nat)
| SocketMessage (i : nat) (data : MessageData)
| ReconnectTimeout
| PingInterval
| AudioProcess (i : nat) (inputData : Float32Array)
| SilenceTimeout (i : nat)
| SourceEnded
| Clock (now : Z).

Definition step (w : t) (e : event) : t :=
  match e with
  | Connect => connect w
  | Disconnect => disconnect w
  | StartListening => startListening_call w
  | Resumed => onResumed w
  | Device i device => onDevice i device w
  | StopListening => stopListening w
  | SocketOpen i => onopen i w
  | SocketError i => onerror i w
  | SocketClose i => onclose i w
  | SocketMessage i data => onmessage i data w
  | ReconnectTimeout => onReconnectTimeout w
  | PingInterval => onPingInterval w
  | AudioProcess i inputData => onaudioprocess i inputData w
  | SilenceTimeout i => onSilenceTimeout i w
  | SourceEnded => onended w
  | Clock now => set_now now w
  end.

Definition run (w : t) (es : list event) : t := fold_left step es w.

End VoiceAgentWebSocket.

(** ** The statements of the specification, as definitions *)

Module Spec.
Import JS.
Import VoiceAgentWebSocket.

(** The events of the transition table of the session, and the final
    transcript, which the message handling adds to them. *)
Inductive Trigger :=
| UserStartsListening
| UtteranceFlush (segment : Float32Array)
| ExplicitStop
| PlaybackStarts
| ServerError (message : string)
| PlaybackDrains
| FinalTranscript (text : string).

(** What the session runs for each of them. *)
Definition react (w : t) (e : Trigger) : t :=
  match e with
  | UserStartsListening => startListening MicrophoneCapture.granted w
  | UtteranceFlush segment =>
      microphone_signal w (MicrophoneCapture.onSilence segment)
  | ExplicitStop => stopListening w
  | PlaybackStarts => player_signal w AudioPlayer.onPlaybackStart
  | ServerError message => handleMessage (Text (Some (error message))) w
  | PlaybackDrains => player_signal w AudioPlayer.onPlaybackEnd
  | FinalTranscript text =>
      handleMessage (Text (Some (transcript text true))) w
  end.

(** The rows of the transition table. *)
Definition listed (s : ConversationState) (e : Trigger) : bool :=
  match s, e with
  | idle, UserStartsListening => true
  | listening, UtteranceFlush _ => true
  | listening, ExplicitStop => true
  | processing, PlaybackStarts => true
  | processing, ServerError _ => true
  | speaking, PlaybackDrains => true
  | _, _ => false
  end.

(** The state an event writes, when it writes one whatever the state. *)
Definition target (e : Trigger) : option ConversationState :=
  match e with
  | UserStartsListening => Some listening
  | UtteranceFlush _ => Some processing
  | ExplicitStop => None
  | PlaybackStarts => Some speaking
  | ServerError _ => Some idle
  | PlaybackDrains => Some idle
  | FinalTranscript _ => Some processing
  end.

(** The sample conversion with the factors the other way round:
    32767 for a negative sample, 32768 otherwise. *)
Definition swapped_float32ToInt16_sample (x : number) : Z :=
  let s := Math_max (of_Z (-1)) (Math_min (of_Z 1) x) in
  ToInt16 (if ltb s (of_Z 0) then mul s (of_Z 32767) else mul s (of_Z 32768)).

(** The sample conversion on exact values: clamp to [-1, 1], scale by
    32768 below zero and by 32767 otherwise, drop the fraction. *)
Definition clamp (q : Q) : Q := Qmax (-1 # 1) (Qmin (1 # 1) q).

Definition Qtruncate (q : Q) : Z := Z.quot (Qnum q) (Zpos (Qden q)).

Definition pcm16 (q : Q) : Z :=
  let s := clamp q in
  Qtruncate (if Qlt_le_dec s (0 # 1) then s * (32768 # 1) else s * (32767 # 1))%Q.

(** The conversion of one element of a [Float32Array]: a finite sample
    goes through [pcm16]; an infinite one counts as 1 or -1; NaN gives 0. *)
Definition exact_sample (y : float32) : Z :=
  match value y with
  | Some q => pcm16 q
  | None =>
      match y with
      | S754_infinity s => if s then -32768 else 32767
      | _ => 0
      end
  end.

(** The sample rate the server has stated last in a control message,
    if any. *)
Fixpoint stated_rate (history : list MessageData) : option Z :=
  match history with
  | [] => None
  | m :: rest =>
      match stated_rate rest with
      | Some r => Some r
      | None =>
          match m with
          | Text (Some (response_audio _ (Some r))) => Some r
          | _ => None
          end
      end
  end.

(** Reconnect delays of [delay] milliseconds started, and sockets
    created, according to a log. *)
Definition is_reconnect (delay : Z) (e : Effect) : bool :=
  match e with
  | setTimeout_reconnect d => d =? delay
  | _ => false
  end.

Definition is_any_reconnect (e : Effect) : bool :=
  match e with
  | setTimeout_reconnect _ => true
  | _ => false
  end.

Definition is_new_socket (e : Effect) : bool :=
  match e with
  | new_WebSocket _ => true
  | _ => false
  end.

Definition count (f : Effect -> bool) (l : list Effect) : nat :=
  length (filter f l).

(** A close event of the socket the session refers to, followed by the
    end of the reconnect delay: the connection attempt that will fail
    in its turn. *)
Definition close_current (w : t) : t :=
  match ws w with
  | Some i => onclose i w
  | None => w
  end.

Definition failed_round (w : t) : t := onReconnectTimeout (close_current w).

Fixpoint failed_rounds (k : nat) (w : t) : t :=
  match k with
  | O => w
  | S k' => failed_rounds k' (failed_round w)
  end.

(** No capture object that the session refers to, or one whose buffer
    is empty. *)
Definition nothing_buffered (w : t) : Prop :=
  match capture w with
  | Some m => MicrophoneCapture.audioBuffer m = []
  | None => True
  end.

(** The messages that [handleMessage] gives no effect on the state or
    on the player. *)
Definition stateless (m : MessageData) : bool :=
  match m with
  | Binary _ => false
  | Text None => true
  | Text (Some (transcript _ is_final)) => negb is_final
  | Text (Some (response_audio _ _)) => false
  | Text (Some (error _)) => false
  | Text (Some _) => true
  end.

(** The sample rates of the segments a session holds, in playing order. *)
Definition rates (w : t) : list Z :=
  map AudioPlayer.sampleRate (AudioPlayer.segments (audioPlayer w)).

(** The session after a sequence of inbound messages. *)
Definition receive (w : t) (history : list MessageData) : t :=
  fold_left (fun w m => handleMessage m w) history w.



(** A capture object as [stop()] leaves it. *)
Definition stopped : MicrophoneCapture.t :=
  MicrophoneCapture.mk false false MicrophoneCapture.null [].

(** *** The claims that the program does not meet, as stated *)

(** Every pair of a state and an event that the table does not list
    leaves the state as it is. *)
Definition unlisted_pairs_keep_state : Prop :=
  forall (w : t) (e : Trigger),
    listed (state w) e = false -> state (react w e) = state w.

(** Every sample is clamped, then scaled by 32767 if negative and by
    32768 if positive. *)
Definition scaled_32767_below_zero : Prop :=
  forall y : float32,
    MicrophoneCapture.float32ToInt16_sample (widen y)
    = swapped_float32ToInt16_sample (widen y).




(** After [disconnect()] no reconnect delay is running and the events
    that follow create no socket. *)
Definition disconnect_cancels_reconnect : Prop :=
  forall (w : t) (i : nat),
    reconnectTimers (disconnect w) = O
    /\ count is_new_socket
         (log (run (disconnect w) [SocketClose i; ReconnectTimeout]))
       = count is_new_socket (log (disconnect w)).

(** A binary frame is enqueued at the sample rate the server has stated,
    and at 22050 Hz only when it has stated none. *)
Definition binary_frames_at_stated_rate : Prop :=
  forall (history : list MessageData) (frame : ArrayBuffer)
         (samples : Int16Array),
    Int16Array_of_buffer frame = Some samples ->
    samples <> [] ->
    let w := receive (new 0) history in
    last (rates (handleMessage (Binary frame) w)) 0
    = match stated_rate history with
      | Some r => r
      | None => AudioPlayer.default_sampleRate
      end.

End Spec.


(** * Properties *)

(** ** Loops over typed arrays *)

Section TypedArrays.
Import JS.
Context {A : Type}.

Lemma length_store (i : nat) (v : A) (a : list A) :
  length (store i v a) = length a.
Proof.
  revert i; induction a as [|h t IH]; intros [|j]; simpl; auto.
Qed.

Lemma firstn_store (i : nat) (v : A) (a : list A) :
  (i < length a)%nat -> firstn (S i) (store i v a) = firstn i a ++ [v].
Proof.
  revert i; induction a as [|h t IH]; intros [|j] Hlt; simpl in *; try lia.
  - reflexivity.
  - f_equal. apply IH. lia.
Qed.

(** A loop that stores [f i] at every index [i] from [i] on leaves the
    elements below [i] and writes [f] over the rest. *)
Lemma for_loop_store (f : nat -> A) (n i : nat) (out : list A) :
  (i + n)%nat = length out ->
  for_loop n i (fun j o => store j (f j) o) out
  = firstn i out ++ map f (seq i n).
Proof.
  revert i out; induction n as [|n IH]; intros i out Hlen; simpl.
  - rewrite firstn_all2 by lia. now rewrite app_nil_r.
  - rewrite IH by (rewrite length_store; lia).
    rewrite firstn_store by lia.
    now rewrite <- app_assoc.
Qed.

Lemma map_seq_nth {B : Type} (g : A -> B) (d : A) (pre l : list A) :
  map (fun j => g (nth j (pre ++ l) d)) (seq (length pre) (length l))
  = map g l.
Proof.
  revert pre; induction l as [|x l IH]; intros pre; simpl; auto.
  f_equal.
  - rewrite app_nth2 by lia. now rewrite Nat.sub_diag.
  - specialize (IH (pre ++ [x])).
    rewrite <- app_assoc in IH. simpl in IH.
    rewrite length_app in IH. simpl in IH.
    rewrite Nat.add_1_r in IH. exact IH.
Qed.

End TypedArrays.

(** [float32ToInt16] converts the samples one by one. *)
Lemma float32ToInt16_map (buffer : JS.Float32Array) :
  MicrophoneCapture.float32ToInt16 buffer
  = map (fun y => MicrophoneCapture.float32ToInt16_sample (JS.widen y)) buffer.
Proof.
  unfold MicrophoneCapture.float32ToInt16, JS.new_Int16Array.
  rewrite (for_loop_store
             (fun j => MicrophoneCapture.float32ToInt16_sample (JS.load buffer j)))
    by (rewrite repeat_length; lia).
  simpl. unfold JS.load.
  exact (map_seq_nth
           (fun y => MicrophoneCapture.float32ToInt16_sample (JS.widen y))
           JS.NaN [] buffer).
Qed.

Lemma nth_error_map_seq {A B : Type} (g : A -> B) (d : B) (pre l : list A) :
  map (fun j => match nth_error (pre ++ l) j with Some z => g z | None => d end)
      (seq (length pre) (length l))
  = map g l.
Proof.
  revert pre; induction l as [|x l IH]; intros pre; simpl; auto.
  f_equal.
  - rewrite nth_error_app2 by lia. now rewrite Nat.sub_diag.
  - specialize (IH (pre ++ [x])).
    rewrite <- app_assoc in IH. simpl in IH.
    rewrite length_app in IH. simpl in IH.
    rewrite Nat.add_1_r in IH. exact IH.
Qed.

(** The decoding loop of [queueAudio] converts the samples one by one. *)
Lemma decode_map (int16 : JS.Int16Array) :
  AudioPlayer.decode int16
  = map (fun v => AudioPlayer.decode_sample (JS.of_Z v)) int16.
Proof.
  unfold AudioPlayer.decode, JS.new_Float32Array.
  rewrite (for_loop_store
             (fun j => AudioPlayer.decode_sample (JS.load_int int16 j)))
    by (rewrite repeat_length; lia).
  simpl. unfold JS.load_int.
  transitivity
    (map (fun j => match nth_error ([] ++ int16) j with
                   | Some z => AudioPlayer.decode_sample (JS.of_Z z)
                   | None => AudioPlayer.decode_sample JS.NaN
                   end) (seq (length (@nil Z)) (length int16))).
  - apply map_ext. intros j. simpl. now destruct (nth_error int16 j).
  - apply nth_error_map_seq.
Qed.

(** ** Sample conversion at the ends of the range *)

(** C4.  The sample +1.0 is encoded as 32767 and the sample -1.0 as
    -32768; the playback decoder turns the 16-bit value 16384 into the
    sample 0.5. *)
Theorem unit_samples_and_half :
  option_map Qred (JS.value (JS.narrow (JS.of_Z 1))) = Some (1 # 1)%Q
  /\ option_map Qred (JS.value (JS.narrow (JS.of_Z (-1)))) = Some (-1 # 1)%Q
  /\ MicrophoneCapture.float32ToInt16 [JS.narrow (JS.of_Z 1)] = [32767]
  /\ MicrophoneCapture.float32ToInt16 [JS.narrow (JS.of_Z (-1))] = [-32768]
  /\ JS.Int16Array_of_buffer [Byte.x00; Byte.x40] = Some [16384]
  /\ (exists half,
        AudioPlayer.decode [16384] = [half]
        /\ option_map Qred (JS.value half) = Some (1 # 2)%Q
        /\ AudioPlayer.segments
             (fst (AudioPlayer.queueAudio AudioPlayer.new
                     [Byte.x00; Byte.x40] None))
           = [AudioPlayer.mkBuffer 22050 [half]]).
Proof.
  do 5 (split; [vm_compute; reflexivity|]).
  exists (S754_finite false 8388608 (-24)).
  repeat split; vm_compute; reflexivity.
Qed.

(** ** Playback signals *)

(** A segment is dequeued with "playback started" exactly when nothing
    is left waiting behind it; an empty queue gives "playback ended". *)
Lemma playNext_signals (p : AudioPlayer.t) :
  snd (AudioPlayer.playNext p)
  = match AudioPlayer.queue p with
    | [] => [AudioPlayer.onPlaybackEnd]
    | [_] => [AudioPlayer.onPlaybackStart]
    | _ :: _ :: _ => []
    end.
Proof.
  unfold AudioPlayer.playNext.
  destruct (AudioPlayer.queue p) as [|b [|c rest]]; reflexivity.
Qed.

(** The end of a segment fires "playback ended" once, and only when no
    segment is waiting. *)
Lemma onended_signals (p : AudioPlayer.t) :
  snd (AudioPlayer.onended p) = [AudioPlayer.onPlaybackEnd]
  <-> AudioPlayer.queue p = [].
Proof.
  unfold AudioPlayer.onended. rewrite playNext_signals. simpl.
  destruct (AudioPlayer.queue p) as [|b [|c rest]]; split; intros H;
    try reflexivity; discriminate.
Qed.

(** Enqueuing and the end of a segment keep a player settled. *)
Lemma settled_step (p : AudioPlayer.t) (e : AudioPlayer.event) :
  AudioPlayer.settled p -> AudioPlayer.settled (fst (AudioPlayer.step p e)).
Proof.
  intros Hp. destruct e as [data rate|]; simpl.
  - unfold AudioPlayer.queueAudio.
    destruct (JS.Int16Array_of_buffer data) as [int16|]; [|exact Hp].
    destruct (AudioPlayer.createBuffer _ _) as [b|]; [|exact Hp].
    simpl. destruct (AudioPlayer.isPlaying p) eqn:E; simpl.
    + intros H. simpl in H. discriminate.
    + unfold AudioPlayer.playNext. simpl.
      destruct (AudioPlayer.queue p); intros H; simpl in H; discriminate.
  - unfold AudioPlayer.onended, AudioPlayer.playNext. simpl.
    destruct (AudioPlayer.queue p); intros H; simpl in *;
      [now split | discriminate].
Qed.

Lemma settled_run (es : list AudioPlayer.event) (p : AudioPlayer.t) :
  AudioPlayer.settled p -> AudioPlayer.settled (fst (AudioPlayer.run p es)).
Proof.
  revert p; induction es as [|e es IH]; intros p Hp; simpl; [exact Hp|].
  pose proof (settled_step p e Hp) as H1.
  destruct (AudioPlayer.step p e) as [p1 s1]. simpl in H1.
  specialize (IH p1 H1).
  now destruct (AudioPlayer.run p1 es).
Qed.

(** C2.  Two segments enqueued one after the other into an idle player:
    "playback started" fires when the first is dequeued and again when
    the second is, although the player has been playing without
    interruption; "playback ended" fires once, when the second one ends. *)
Theorem playback_started_fires_twice_in_one_run :
  let A := [Byte.x00; Byte.x40] in
  let B := [Byte.x00; Byte.xc0] in
  let after es := AudioPlayer.run AudioPlayer.new es in
  snd (after [AudioPlayer.Enqueue A None])
  = [AudioPlayer.onPlaybackStart]
  /\ AudioPlayer.isPlaying (fst (after [AudioPlayer.Enqueue A None])) = true
  /\ snd (after [AudioPlayer.Enqueue A None; AudioPlayer.Enqueue B None])
     = [AudioPlayer.onPlaybackStart]
  /\ AudioPlayer.isPlaying
       (fst (after [AudioPlayer.Enqueue A None; AudioPlayer.Enqueue B None]))
     = true
  /\ snd (after [AudioPlayer.Enqueue A None; AudioPlayer.Enqueue B None;
                 AudioPlayer.Ended])
     = [AudioPlayer.onPlaybackStart; AudioPlayer.onPlaybackStart]
  /\ AudioPlayer.isPlaying
       (fst (after [AudioPlayer.Enqueue A None; AudioPlayer.Enqueue B None;
                    AudioPlayer.Ended]))
     = true
  /\ snd (after [AudioPlayer.Enqueue A None; AudioPlayer.Enqueue B None;
                 AudioPlayer.Ended; AudioPlayer.Ended])
     = [AudioPlayer.onPlaybackStart; AudioPlayer.onPlaybackStart;
        AudioPlayer.onPlaybackEnd].
Proof.
  repeat split; vm_compute; reflexivity.
Qed.

(** The same holds for any two frames of an even, non-zero number of
    bytes enqueued into an idle player, at any sample rates. *)
Lemma second_segment_fires_started_again
  (p : AudioPlayer.t) (A B : JS.ArrayBuffer) (a b : JS.Int16Array)
  (ra rb : option Z) :
  AudioPlayer.isPlaying p = false ->
  AudioPlayer.queue p = [] ->
  JS.Int16Array_of_buffer A = Some a -> a <> [] ->
  JS.Int16Array_of_buffer B = Some b -> b <> [] ->
  snd (AudioPlayer.run p
         [AudioPlayer.Enqueue A ra; AudioPlayer.Enqueue B rb;
          AudioPlayer.Ended])
  = [AudioPlayer.onPlaybackStart; AudioPlayer.onPlaybackStart].
Proof.
  intros Hidle Hq HA Ha HB Hb.
  assert (Hda : AudioPlayer.decode a <> [])
    by (rewrite decode_map; destruct a; [congruence | discriminate]).
  assert (Hdb : AudioPlayer.decode b <> [])
    by (rewrite decode_map; destruct b; [congruence | discriminate]).
  simpl. unfold AudioPlayer.queueAudio at 1. rewrite HA.
  unfold AudioPlayer.createBuffer.
  destruct (AudioPlayer.decode a) as [|x xs] eqn:Ea; [congruence|].
  simpl. rewrite Hidle, Hq. simpl.
  unfold AudioPlayer.queueAudio. rewrite HB.
  destruct (AudioPlayer.decode b) as [|y ys] eqn:Eb; [congruence|].
  reflexivity.
Qed.

(** ** What the session's helpers leave unchanged *)

Section SessionFrames.
Import VoiceAgentWebSocket.

Lemma state_eqb_eq (a b : ConversationState) :
  state_eqb a b = true <-> a = b.
Proof. destruct a, b; simpl; split; congruence. Qed.

Lemma state_setState (s : ConversationState) (w : t) :
  state (setState s w) = s.
Proof.
  unfold setState. destruct (state_eqb (state w) s) eqn:E; simpl; auto.
  now apply state_eqb_eq.
Qed.

Lemma state_sendJSON (m : Outbound) (w : t) : state (sendJSON m w) = state w.
Proof. unfold sendJSON. now destruct (open_socket w). Qed.

Lemma state_sendBinary (d : JS.ArrayBuffer) (w : t) :
  state (sendBinary d w) = state w.
Proof. unfold sendBinary. now destruct (open_socket w). Qed.

(** [setState] touches the state and the log only. *)
Lemma setState_frame (s : ConversationState) (w : t) :
  ws (setState s w) = ws w
  /\ microphone (setState s w) = microphone w
  /\ audioPlayer (setState s w) = audioPlayer w
  /\ reconnectAttempts (setState s w) = reconnectAttempts w
  /\ pingInterval (setState s w) = pingInterval w
  /\ sockets (setState s w) = sockets w
  /\ intervals (setState s w) = intervals w
  /\ reconnectTimers (setState s w) = reconnectTimers w.
Proof. unfold setState. destruct (state_eqb (state w) s); now simpl. Qed.

(** [sendJSON] touches the log only. *)
Lemma sendJSON_frame (m : Outbound) (w : t) :
  ws (sendJSON m w) = ws w
  /\ microphone (sendJSON m w) = microphone w
  /\ audioPlayer (sendJSON m w) = audioPlayer w
  /\ reconnectAttempts (sendJSON m w) = reconnectAttempts w
  /\ pingInterval (sendJSON m w) = pingInterval w
  /\ sockets (sendJSON m w) = sockets w
  /\ intervals (sendJSON m w) = intervals w
  /\ reconnectTimers (sendJSON m w) = reconnectTimers w.
Proof. unfold sendJSON. destruct (open_socket w); now simpl. Qed.

Lemma sendBinary_frame (d : JS.ArrayBuffer) (w : t) :
  ws (sendBinary d w) = ws w
  /\ microphone (sendBinary d w) = microphone w
  /\ audioPlayer (sendBinary d w) = audioPlayer w
  /\ reconnectAttempts (sendBinary d w) = reconnectAttempts w
  /\ pingInterval (sendBinary d w) = pingInterval w
  /\ sockets (sendBinary d w) = sockets w
  /\ intervals (sendBinary d w) = intervals w
  /\ reconnectTimers (sendBinary d w) = reconnectTimers w.
Proof. unfold sendBinary. destruct (open_socket w); now simpl. Qed.

(** The callbacks of the player and of the capture object touch the
    state and the log only. *)
Lemma player_signal_frame (w : t) (s : AudioPlayer.signal) :
  ws (player_signal w s) = ws w
  /\ microphone (player_signal w s) = microphone w
  /\ audioPlayer (player_signal w s) = audioPlayer w
  /\ reconnectAttempts (player_signal w s) = reconnectAttempts w
  /\ pingInterval (player_signal w s) = pingInterval w
  /\ sockets (player_signal w s) = sockets w
  /\ intervals (player_signal w s) = intervals w
  /\ reconnectTimers (player_signal w s) = reconnectTimers w.
Proof. destruct s; apply setState_frame. Qed.

Lemma microphone_signal_frame (w : t) (s : MicrophoneCapture.signal) :
  ws (microphone_signal w s) = ws w
  /\ microphone (microphone_signal w s) = microphone w
  /\ audioPlayer (microphone_signal w s) = audioPlayer w
  /\ reconnectAttempts (microphone_signal w s) = reconnectAttempts w
  /\ pingInterval (microphone_signal w s) = pingInterval w
  /\ sockets (microphone_signal w s) = sockets w
  /\ intervals (microphone_signal w s) = intervals w
  /\ reconnectTimers (microphone_signal w s) = reconnectTimers w.
Proof.
  destruct s as [chunk ts|segment|message]; simpl.
  - destruct (open_socket w); [apply sendBinary_frame | tauto].
  - pose proof (setState_frame processing
                  (sendJSON (send_audio_end (now w)) w)) as H.
    pose proof (sendJSON_frame (send_audio_end (now w)) w) as J.
    intuition congruence.
  - tauto.
Qed.

Lemma player_signals_frame (sigs : list AudioPlayer.signal) (w : t) :
  ws (fold_left player_signal sigs w) = ws w
  /\ microphone (fold_left player_signal sigs w) = microphone w
  /\ audioPlayer (fold_left player_signal sigs w) = audioPlayer w
  /\ reconnectAttempts (fold_left player_signal sigs w) = reconnectAttempts w
  /\ pingInterval (fold_left player_signal sigs w) = pingInterval w
  /\ sockets (fold_left player_signal sigs w) = sockets w
  /\ intervals (fold_left player_signal sigs w) = intervals w
  /\ reconnectTimers (fold_left player_signal sigs w) = reconnectTimers w.
Proof.
  revert w; induction sigs as [|s sigs IH]; intros w; simpl; [tauto|].
  pose proof (IH (player_signal w s)) as H.
  pose proof (player_signal_frame w s) as J.
  intuition congruence.
Qed.

Lemma microphone_signals_frame (sigs : list MicrophoneCapture.signal) (w : t) :
  ws (fold_left microphone_signal sigs w) = ws w
  /\ microphone (fold_left microphone_signal sigs w) = microphone w
  /\ audioPlayer (fold_left microphone_signal sigs w) = audioPlayer w
  /\ reconnectAttempts (fold_left microphone_signal sigs w)
     = reconnectAttempts w
  /\ pingInterval (fold_left microphone_signal sigs w) = pingInterval w
  /\ sockets (fold_left microphone_signal sigs w) = sockets w
  /\ intervals (fold_left microphone_signal sigs w) = intervals w
  /\ reconnectTimers (fold_left microphone_signal sigs w) = reconnectTimers w.
Proof.
  revert w; induction sigs as [|s sigs IH]; intros w; simpl; [tauto|].
  pose proof (IH (microphone_signal w s)) as H.
  pose proof (microphone_signal_frame w s) as J.
  intuition congruence.
Qed.

(** The callbacks leave the capture objects, the pending steps of
    [startListening] and the clock alone. *)
Lemma setState_heap (s : ConversationState) (w : t) :
  captures (setState s w) = captures w
  /\ resuming (setState s w) = resuming w
  /\ acquiring (setState s w) = acquiring w
  /\ now (setState s w) = now w.
Proof. unfold setState. destruct (state_eqb (state w) s); now simpl. Qed.

Lemma sendJSON_heap (m : Outbound) (w : t) :
  captures (sendJSON m w) = captures w
  /\ resuming (sendJSON m w) = resuming w
  /\ acquiring (sendJSON m w) = acquiring w
  /\ now (sendJSON m w) = now w.
Proof. unfold sendJSON. destruct (open_socket w); now simpl. Qed.

Lemma sendBinary_heap (d : JS.ArrayBuffer) (w : t) :
  captures (sendBinary d w) = captures w
  /\ resuming (sendBinary d w) = resuming w
  /\ acquiring (sendBinary d w) = acquiring w
  /\ now (sendBinary d w) = now w.
Proof. unfold sendBinary. destruct (open_socket w); now simpl. Qed.

Lemma microphone_signal_heap (w : t) (s : MicrophoneCapture.signal) :
  captures (microphone_signal w s) = captures w
  /\ resuming (microphone_signal w s) = resuming w
  /\ acquiring (microphone_signal w s) = acquiring w
  /\ now (microphone_signal w s) = now w.
Proof.
  destruct s as [chunk ts|segment|message]; simpl.
  - destruct (open_socket w); [apply sendBinary_heap | tauto].
  - pose proof (setState_heap processing
                  (sendJSON (send_audio_end (now w)) w)) as H.
    pose proof (sendJSON_heap (send_audio_end (now w)) w) as J.
    intuition congruence.
  - tauto.
Qed.

Lemma microphone_signals_heap (sigs : list MicrophoneCapture.signal) (w : t) :
  captures (fold_left microphone_signal sigs w) = captures w
  /\ resuming (fold_left microphone_signal sigs w) = resuming w
  /\ acquiring (fold_left microphone_signal sigs w) = acquiring w
  /\ now (fold_left microphone_signal sigs w) = now w.
Proof.
  revert w; induction sigs as [|s sigs IH]; intros w; simpl; [tauto|].
  pose proof (IH (microphone_signal w s)) as H.
  pose proof (microphone_signal_heap w s) as J.
  intuition congruence.
Qed.

(** Reading and writing the elements of a fixed-length sequence. *)
Lemma nth_error_store {A : Type} (i : nat) (v : A) (a : list A) :
  (i < length a)%nat -> nth_error (JS.store i v a) i = Some v.
Proof.
  revert i; induction a as [|h t IH]; intros [|j] Hlt; simpl in *;
    try lia; auto.
  apply IH. lia.
Qed.


End SessionFrames.

(** ** Merging the buffered chunks *)

Section Merge.
Import JS.

Lemma total_length (chunks : list Float32Array) (a : nat) :
  fold_left (fun acc chunk => (acc + length chunk)%nat) chunks a
  = (a + length (concat chunks))%nat.
Proof.
  revert a; induction chunks as [|c chunks IH]; intros a; simpl.
  - lia.
  - rewrite IH, length_app. lia.
Qed.

Lemma skipn_repeat {A : Type} (x : A) (k n : nat) :
  skipn k (repeat x (k + n)) = repeat x n.
Proof. induction k; simpl; auto. Qed.

(** Copying a chunk at the end of the part already written. *)
Lemma set_at_end (pre chunk : Float32Array) (z : float32) (n : nat) :
  MicrophoneCapture.set (pre ++ repeat z (length chunk + n)) chunk (length pre)
  = Some ((pre ++ chunk) ++ repeat z n).
Proof.
  unfold MicrophoneCapture.set.
  rewrite length_app, repeat_length.
  replace (length pre + length chunk <=? length pre + (length chunk + n))%nat
    with true by (symmetry; apply Nat.leb_le; lia).
  rewrite firstn_app, Nat.sub_diag, firstn_all, firstn_O, app_nil_r.
  rewrite skipn_app.
  rewrite (skipn_all2 pre) by lia.
  replace (length pre + length chunk - length pre)%nat
    with (length chunk) by lia.
  rewrite skipn_repeat. simpl. now rewrite <- app_assoc.
Qed.

Lemma merge_loop (chunks : list Float32Array) (pre : Float32Array)
  (z : float32) :
  fold_left
    (fun st chunk =>
       match st with
       | Some (merged, offset) =>
           match MicrophoneCapture.set merged chunk offset with
           | Some merged' => Some (merged', (offset + length chunk)%nat)
           | None => None
           end
       | None => None
       end)
    chunks (Some (pre ++ repeat z (length (concat chunks)), length pre))
  = Some (pre ++ concat chunks, length (pre ++ concat chunks)).
Proof.
  revert pre; induction chunks as [|c chunks IH]; intros pre; simpl.
  - now rewrite !app_nil_r.
  - rewrite length_app, set_at_end.
    replace (length pre + length c)%nat with (length (pre ++ c))
      by (rewrite length_app; lia).
    rewrite IH. now rewrite <- app_assoc.
Qed.

(** The merge never fails and yields the chunks one after the other, in
    the order of the buffer. *)
Lemma merge_concat (chunks : list Float32Array) :
  MicrophoneCapture.merge chunks = Some (concat chunks).
Proof.
  unfold MicrophoneCapture.merge, new_Float32Array.
  rewrite total_length.
  pose proof (merge_loop chunks [] (S754_zero false)) as H.
  simpl in *.
  match goal with
  | |- match ?X with _ => _ end = _ =>
      replace X with (Some (concat chunks, length (concat chunks)))
        by (symmetry; exact H)
  end.
  reflexivity.
Qed.

(** [flushBuffer]: nothing for an empty buffer; otherwise one call of
    [onSilence] with the concatenation, and an empty buffer. *)
Lemma flushBuffer_spec (m : MicrophoneCapture.t) :
  MicrophoneCapture.flushBuffer m
  = match MicrophoneCapture.audioBuffer m with
    | [] => (m, [])
    | _ :: _ =>
        (MicrophoneCapture.mk (MicrophoneCapture.mediaStream m)
           (MicrophoneCapture.isRecording m)
           (MicrophoneCapture.silenceTimer m) [],
         [MicrophoneCapture.onSilence
            (concat (MicrophoneCapture.audioBuffer m))])
    end.
Proof.
  unfold MicrophoneCapture.flushBuffer.
  rewrite merge_concat.
  now destruct (MicrophoneCapture.audioBuffer m).
Qed.

(** [stop] leaves a capture object that holds no device, records
    nothing, has no timer and an empty buffer. *)
Lemma stop_spec (m : MicrophoneCapture.t) :
  MicrophoneCapture.stop m
  = (MicrophoneCapture.mk false false MicrophoneCapture.null [],
     match MicrophoneCapture.audioBuffer m with
     | [] => []
     | chunks => [MicrophoneCapture.onSilence (concat chunks)]
     end).
Proof.
  unfold MicrophoneCapture.stop. rewrite flushBuffer_spec. simpl.
  now destruct (MicrophoneCapture.audioBuffer m).
Qed.

End Merge.

(** ** Silence-triggered flush *)

Section SilenceFlush.
Import JS.
Import MicrophoneCapture.







End SilenceFlush.



(** ** Inbound audio *)

Section InboundAudio.
Import JS.
Import VoiceAgentWebSocket.

Lemma audioPlayer_with_player (r : AudioPlayer.t * list AudioPlayer.signal)
  (w : t) :
  audioPlayer (with_player r w) = fst r.
Proof.
  unfold with_player.
  now rewrite (proj1 (proj2 (proj2 (player_signals_frame (snd r) _)))).
Qed.

(** An audio buffer enqueued into a settled player comes last among the
    segments it holds. *)
Lemma queueAudio_segments (p : AudioPlayer.t) (data : ArrayBuffer)
  (rate : option Z) (samples : Int16Array) :
  Int16Array_of_buffer data = Some samples ->
  samples <> [] ->
  AudioPlayer.settled p ->
  AudioPlayer.segments (fst (AudioPlayer.queueAudio p data rate))
  = AudioPlayer.segments p
    ++ [AudioPlayer.mkBuffer
          (match rate with
           | Some r => r
           | None => AudioPlayer.default_sampleRate
           end)
          (AudioPlayer.decode samples)].
Proof.
  intros Hdata Hne Hsettled.
  unfold AudioPlayer.queueAudio. rewrite Hdata.
  assert (Hdec : AudioPlayer.decode samples <> []).
  { rewrite decode_map. destruct samples; [congruence | discriminate]. }
  unfold AudioPlayer.createBuffer.
  destruct (AudioPlayer.decode samples) as [|x xs] eqn:E; [congruence|].
  simpl. destruct (AudioPlayer.isPlaying p) eqn:Hplay; simpl.
  - unfold AudioPlayer.segments. simpl.
    now destruct (AudioPlayer.currentSource p).
  - destruct (Hsettled Hplay) as [Hq Hc].
    unfold AudioPlayer.playNext, AudioPlayer.segments. simpl.
    rewrite Hq, Hc. reflexivity.
Qed.

(** C9.  A binary frame is handled as [queueAudio] called with the rate
    22050, whatever the session has received before; a frame of an even,
    non-zero number of bytes is decoded and comes last among the segments
    of a settled player, with the sample rate 22050. *)
Theorem binary_frames_play_at_22050
  (w : t) (frame : ArrayBuffer) (samples : Int16Array) :
  Int16Array_of_buffer frame = Some samples ->
  samples <> [] ->
  AudioPlayer.settled (audioPlayer w) ->
  handleMessage (Binary frame) w
  = with_player
      (AudioPlayer.queueAudio (audioPlayer w) frame (Some 22050)) w
  /\ AudioPlayer.segments (audioPlayer (handleMessage (Binary frame) w))
     = AudioPlayer.segments (audioPlayer w)
       ++ [AudioPlayer.mkBuffer 22050 (AudioPlayer.decode samples)].
Proof.
  intros Hdata Hne Hsettled. split; [reflexivity|].
  simpl. unfold handleAudioChunk.
  rewrite audioPlayer_with_player.
  now rewrite (queueAudio_segments _ _ None samples Hdata Hne Hsettled).
Qed.

Lemma binary_frames_play_at_22050_witness :
  (Int16Array_of_buffer [Byte.x00; Byte.x40] = Some [16384]
   /\ [16384] <> []
   /\ AudioPlayer.settled (audioPlayer (new 0)))
  /\ Spec.rates (handleMessage (Binary [Byte.x00; Byte.x40]) (new 0))
     = [22050].
Proof.
  assert (H1 : Int16Array_of_buffer [Byte.x00; Byte.x40] = Some [16384])
    by reflexivity.
  assert (H2 : [16384] <> (@nil Z)) by discriminate.
  assert (H3 : AudioPlayer.settled (audioPlayer (new 0)))
    by (intros _; split; reflexivity).
  split; [repeat split; assumption|].
  unfold Spec.rates.
  rewrite (proj2 (binary_frames_play_at_22050 (new 0) _ _ H1 H2 H3)).
  reflexivity.
Defined.

(** C9, as stated, fails: after a [response_audio] message that states
    16000 Hz, a binary frame is still enqueued at 22050 Hz. *)
Lemma binary_frame_ignores_stated_rate :
  Spec.rates
    (Spec.receive (new 0)
       [Text (Some (response_audio [Byte.x00; Byte.x40] (Some 16000)));
        Binary [Byte.x00; Byte.x40]])
  = [16000; 22050]
  /\ ~ Spec.binary_frames_at_stated_rate.
Proof.
  split; [reflexivity|].
  intros H.
  specialize (H [Text (Some (response_audio [Byte.x00; Byte.x40] (Some 16000)))]
                [Byte.x00; Byte.x40] [16384] eq_refl).
  assert (Hne : [16384] <> (@nil Z)) by discriminate.
  specialize (H Hne). vm_compute in H. discriminate H.
Qed.

End InboundAudio.

(** ** Conversation state *)

Section ConversationStates.
Import JS.
Import VoiceAgentWebSocket.

Lemma captures_with_capture (i : nat)
  (r : MicrophoneCapture.t * list MicrophoneCapture.signal) (w : t) :
  captures (with_capture i r w) = store i (fst r) (captures w).
Proof.
  unfold with_capture.
  now rewrite (proj1 (microphone_signals_heap (snd r) _)).
Qed.

Lemma store_last {A : Type} (l : list A) (x v : A) :
  store (length l) v (l ++ [x]) = l ++ [v].
Proof. induction l as [|h l IH]; simpl; [reflexivity | now rewrite IH]. Qed.

(** A call of [startListening()] that nothing interrupts and to which
    the device is granted: the session listens, and refers to a new
    capture object, which records; the objects created before are as
    they were. *)
Lemma startListening_granted (w : t) :
  state (startListening MicrophoneCapture.granted w) = listening
  /\ microphone (startListening MicrophoneCapture.granted w)
     = Some (length (captures w))
  /\ captures (startListening MicrophoneCapture.granted w)
     = captures w
       ++ [MicrophoneCapture.mk true true MicrophoneCapture.null []].
Proof.
  unfold startListening, startListening_call, onResumed.
  cbn [resuming set_resuming MicrophoneCapture.isRecording
       MicrophoneCapture.new].
  unfold onDevice.
  cbn [acquiring captures set_acquiring set_microphone set_captures
       set_audioPlayer set_resuming].
  rewrite existsb_app. cbn [existsb]. rewrite Nat.eqb_refl, orb_true_r.
  rewrite nth_error_app2, Nat.sub_diag by apply le_n.
  cbn [nth_error MicrophoneCapture.acquire MicrophoneCapture.new
       MicrophoneCapture.silenceTimer MicrophoneCapture.audioBuffer].
  unfold with_capture, started. cbn [fst snd fold_left].
  match goal with
  | |- context [setState listening ?X] => set (w1 := X)
  end.
  pose proof (setState_frame listening w1) as (_ & F2 & _).
  pose proof (sendJSON_frame
                (send_session_start CONFIG.FORMAT CONFIG.SAMPLE_RATE)
                (setState listening w1)) as (_ & G2 & _).
  pose proof (setState_heap listening w1) as (F9 & _).
  pose proof (sendJSON_heap
                (send_session_start CONFIG.FORMAT CONFIG.SAMPLE_RATE)
                (setState listening w1)) as (G9 & _).
  rewrite state_sendJSON, state_setState, G2, F2, G9, F9.
  split; [reflexivity|]. split; [reflexivity|].
  unfold w1, set_capture.
  cbn [captures set_captures set_acquiring set_microphone].
  apply store_last.
Qed.

(** The same when other events have taken place between the steps of
    the call: once the device is granted to a capture object whose
    [start()] awaits it, the session listens and the object records,
    whether or not the session still refers to it. *)
Lemma onDevice_granted (i : nat) (m : MicrophoneCapture.t) (w : t) :
  existsb (Nat.eqb i) (acquiring w) = true ->
  nth_error (captures w) i = Some m ->
  state (onDevice i MicrophoneCapture.granted w) = listening
  /\ microphone (onDevice i MicrophoneCapture.granted w) = microphone w
  /\ nth_error (captures (onDevice i MicrophoneCapture.granted w)) i
     = Some (MicrophoneCapture.mk true true
               (MicrophoneCapture.silenceTimer m)
               (MicrophoneCapture.audioBuffer m)).
Proof.
  intros Ha Hm. unfold onDevice. rewrite Ha, Hm.
  cbn [MicrophoneCapture.acquire]. unfold with_capture, started.
  cbn [fst snd fold_left].
  match goal with
  | |- context [setState listening ?X] => set (w1 := X)
  end.
  pose proof (setState_frame listening w1) as (_ & F2 & _).
  pose proof (sendJSON_frame
                (send_session_start CONFIG.FORMAT CONFIG.SAMPLE_RATE)
                (setState listening w1)) as (_ & G2 & _).
  pose proof (setState_heap listening w1) as (F9 & _).
  pose proof (sendJSON_heap
                (send_session_start CONFIG.FORMAT CONFIG.SAMPLE_RATE)
                (setState listening w1)) as (G9 & _).
  rewrite state_sendJSON, state_setState, G2, F2, G9, F9.
  split; [reflexivity|]. split; [reflexivity|].
  unfold w1, set_capture. cbn [captures set_captures set_acquiring].
  apply nth_error_store. apply nth_error_Some. congruence.
Qed.

(** The session after [stopListening], by cases on what the capture
    object it refers to has buffered. *)
Lemma stopListening_state (w : t) :
  state (stopListening w)
  = match capture w with
    | Some m =>
        match MicrophoneCapture.audioBuffer m with
        | [] => if state_eqb (state w) listening then idle else state w
        | _ :: _ => processing
        end
    | None => if state_eqb (state w) listening then idle else state w
    end.
Proof.
  unfold stopListening, capture.
  destruct (microphone w) as [i|] eqn:Hm;
    [destruct (nth_error (captures w) i) as [m|] eqn:Hc|].
  - unfold with_capture. rewrite stop_spec.
    destruct (MicrophoneCapture.audioBuffer m) as [|c chunks] eqn:Hbuf; simpl.
    + destruct (state_eqb (state w) listening) eqn:E; simpl; auto.
      apply state_setState.
    + rewrite state_setState. simpl. apply state_setState.
  - simpl. destruct (state_eqb (state w) listening) eqn:E; simpl; auto.
    apply state_setState.
  - simpl. destruct (state_eqb (state w) listening) eqn:E; simpl; auto.
    apply state_setState.
Qed.

Lemma microphone_stopListening (w : t) : microphone (stopListening w) = None.
Proof.
  unfold stopListening.
  destruct (state_eqb _ listening);
    [rewrite (proj1 (proj2 (setState_frame idle _)))|]; reflexivity.
Qed.

(** [stopListening] stops the capture object the session refers to, and
    touches no other. *)
Lemma captures_stopListening (w : t) :
  captures (stopListening w)
  = match microphone w with
    | Some i =>
        match nth_error (captures w) i with
        | Some _ => store i Spec.stopped (captures w)
        | None => captures w
        end
    | None => captures w
    end.
Proof.
  unfold stopListening.
  match goal with
  | |- context [set_microphone None ?X] => set (w1 := X)
  end.
  assert (H : captures (if state_eqb (state (set_microphone None w1)) listening
                        then setState idle (set_microphone None w1)
                        else set_microphone None w1)
              = captures w1).
  { destruct (state_eqb _ listening); [|reflexivity].
    now rewrite (proj1 (setState_heap idle _)). }
  rewrite H. unfold w1.
  destruct (microphone w) as [i|]; [|reflexivity].
  destruct (nth_error (captures w) i) as [m|]; [|reflexivity].
  now rewrite captures_with_capture, stop_spec.
Qed.


(** C1.  An event that writes a state writes it whatever the current
    state is: a completed [startListening] gives [listening], an
    utterance flush or a final transcript [processing], a playback start
    [speaking], a playback end or a server error [idle].  Only the
    explicit stop looks at the current state: with nothing buffered it
    leaves every state but [listening] as it is.  A message without
    effect on the state leaves it as it is. *)
Theorem transitions_are_unguarded_writes
  (w : t) (e : Spec.Trigger) (m : MessageData) :
  (forall s, Spec.target e = Some s -> state (Spec.react w e) = s)
  /\ (e = Spec.ExplicitStop ->
      state w <> listening ->
      Spec.nothing_buffered w ->
      state (Spec.react w e) = state w)
  /\ (Spec.stateless m = true -> state (handleMessage m w) = state w).
Proof.
  split; [|split].
  - intros s Ht. destruct e; simpl in Ht; inversion Ht; subst; simpl.
    + apply startListening_granted.
    + apply state_setState.
    + apply state_setState.
    + apply state_setState.
    + apply state_setState.
    + apply state_setState.
  - intros -> Hstate Hbuf. simpl. rewrite stopListening_state.
    assert (E : state_eqb (state w) listening = false).
    { destruct (state_eqb (state w) listening) eqn:E; auto.
      apply state_eqb_eq in E. contradiction. }
    unfold Spec.nothing_buffered in Hbuf.
    destruct (capture w) as [mic|]; rewrite ?Hbuf, E; reflexivity.
  - intros Hm. destruct m as [data|[msg|]]; simpl in *; try discriminate;
      auto.
    destruct msg; simpl in *; try discriminate; auto.
    destruct is_final; simpl in *; try discriminate; auto.
Qed.

Lemma transitions_are_unguarded_writes_witness :
  (Spec.target (Spec.FinalTranscript "ok") = Some processing
   /\ speaking <> listening
   /\ Spec.nothing_buffered (set_state speaking (new 0))
   /\ Spec.stateless (Text (Some pong)) = true)
  /\ state (Spec.react (set_state speaking (new 0)) (Spec.FinalTranscript "ok"))
     = processing
  /\ state (Spec.react (set_state speaking (new 0)) Spec.ExplicitStop)
     = speaking
  /\ state (handleMessage (Text (Some pong)) (set_state speaking (new 0)))
     = speaking.
Proof.
  assert (H1 : Spec.target (Spec.FinalTranscript "ok") = Some processing)
    by reflexivity.
  assert (H2 : speaking <> listening) by discriminate.
  assert (H3 : Spec.nothing_buffered (set_state speaking (new 0)))
    by exact I.
  assert (H4 : Spec.stateless (Text (Some pong)) = true) by reflexivity.
  split; [repeat split; assumption|].
  split; [|split].
  - exact (proj1 (transitions_are_unguarded_writes
                    (set_state speaking (new 0)) (Spec.FinalTranscript "ok")
                    (Text (Some pong))) processing H1).
  - exact (proj1 (proj2 (transitions_are_unguarded_writes
                           (set_state speaking (new 0)) Spec.ExplicitStop
                           (Text (Some pong)))) eq_refl H2 H3).
  - exact (proj2 (proj2 (transitions_are_unguarded_writes
                           (set_state speaking (new 0)) Spec.ExplicitStop
                           (Text (Some pong)))) H4).
Defined.

(** C1, as stated, fails: a final transcript received in state [idle]
    moves the session to [processing], and the table has no such row. *)
Lemma final_transcript_moves_idle_session :
  state (new 0) = idle
  /\ Spec.listed idle (Spec.FinalTranscript "ok") = false
  /\ state (Spec.react (new 0) (Spec.FinalTranscript "ok")) = processing
  /\ ~ Spec.unlisted_pairs_keep_state.
Proof.
  do 3 (split; [reflexivity|]).
  intros H.
  specialize (H (new 0) (Spec.FinalTranscript "ok") eq_refl).
  vm_compute in H. discriminate H.
Qed.


End ConversationStates.



(** ** Reconnection *)

Section Reconnection.
Import JS.
Import VoiceAgentWebSocket.

Lemma count_snoc (f : Effect -> bool) (l : list Effect) (e : Effect) :
  Spec.count f (l ++ [e]) = (Spec.count f l + if f e then 1 else 0)%nat.
Proof.
  unfold Spec.count. rewrite filter_app, length_app. simpl.
  now destruct (f e).
Qed.

(** [stopListening] leaves the connection and its timers alone. *)
Lemma stopListening_frame (w : t) :
  ws (stopListening w) = ws w
  /\ reconnectAttempts (stopListening w) = reconnectAttempts w
  /\ pingInterval (stopListening w) = pingInterval w
  /\ sockets (stopListening w) = sockets w
  /\ intervals (stopListening w) = intervals w
  /\ reconnectTimers (stopListening w) = reconnectTimers w.
Proof.
  unfold stopListening.
  match goal with
  | |- context [set_microphone None ?X] => set (w1 := X)
  end.
  assert (H1 : ws w1 = ws w
               /\ reconnectAttempts w1 = reconnectAttempts w
               /\ pingInterval w1 = pingInterval w
               /\ sockets w1 = sockets w
               /\ intervals w1 = intervals w
               /\ reconnectTimers w1 = reconnectTimers w).
  { unfold w1. destruct (microphone w) as [k|]; [|tauto].
    destruct (nth_error (captures w) k) as [m|]; [|tauto].
    unfold with_capture.
    pose proof (microphone_signals_frame (snd (MicrophoneCapture.stop m))
                  (set_capture k (fst (MicrophoneCapture.stop m)) w))
      as H.
    simpl in H. tauto. }
  destruct (state_eqb (state (set_microphone None w1)) listening).
  - pose proof (setState_frame idle (set_microphone None w1)) as H.
    simpl in H. intuition congruence.
  - simpl. exact H1.
Qed.

(** C6.  [disconnect()] stops the heartbeat it holds, stops the
    capture object the session refers to, asks the socket to close and
    drops it.  The reconnect loop goes on all the same: the reconnect
    counter and the running reconnect delays are as they were; and while
    the counter is below the maximum, the close event that follows
    starts a reconnect delay, at the end of which a new socket is
    created, which the session refers to and whose opening starts the
    heartbeat again. *)
Theorem disconnect_keeps_reconnect_loop (w : t) (i : nat) :
  pingInterval (disconnect w) = false
  /\ intervals (disconnect w)
     = (if pingInterval w then Nat.pred (intervals w) else intervals w)
  /\ microphone (disconnect w) = None
  /\ (forall k m,
        microphone w = Some k ->
        nth_error (captures w) k = Some m ->
        nth_error (captures (disconnect w)) k = Some Spec.stopped)
  /\ ws (disconnect w) = None
  /\ (forall j, ws w = Some j ->
        nth_error (sockets (disconnect w)) j <> Some OPEN
        /\ nth_error (sockets (disconnect w)) j <> Some CONNECTING)
  /\ reconnectAttempts (disconnect w) = reconnectAttempts w
  /\ reconnectTimers (disconnect w) = reconnectTimers w
  /\ ((reconnectAttempts w < CONFIG.MAX_RECONNECT_ATTEMPTS)%nat ->
      let w' := run (disconnect w) [SocketClose i; ReconnectTimeout] in
      reconnectTimers (onclose i (disconnect w)) = S (reconnectTimers w)
      /\ Spec.count Spec.is_new_socket (log w')
         = S (Spec.count Spec.is_new_socket (log (disconnect w)))
      /\ ws w' = Some (length (sockets (disconnect w)))
      /\ nth_error (sockets w') (length (sockets (disconnect w)))
         = Some CONNECTING
      /\ pingInterval (onopen (length (sockets (disconnect w))) w') = true).
Proof.
  pose proof (stopListening_frame (stopPing w)) as
    (Hws & Hatt & Hping & Hsock & Hint & Htim).
  assert (Hping' : pingInterval (stopPing w) = false).
  { unfold stopPing. now destruct (pingInterval w) eqn:E. }
  assert (Hsp : ws (stopPing w) = ws w
                /\ reconnectAttempts (stopPing w) = reconnectAttempts w
                /\ sockets (stopPing w) = sockets w
                /\ reconnectTimers (stopPing w) = reconnectTimers w
                /\ intervals (stopPing w)
                   = (if pingInterval w then Nat.pred (intervals w)
                      else intervals w)
                /\ microphone (stopPing w) = microphone w
                /\ captures (stopPing w) = captures w).
  { unfold stopPing. now destruct (pingInterval w). }
  destruct Hsp as (Hws0 & Hatt0 & Hsock0 & Htim0 & Hint0 & Hmic0 & Hcap0).
  assert (Hmic : microphone (stopListening (stopPing w)) = None)
    by apply microphone_stopListening.
  pose proof (captures_stopListening (stopPing w)) as Hcap.
  rewrite Hmic0, Hcap0 in Hcap.
  set (w1 := stopListening (stopPing w)) in *.
  assert (Hd : disconnect w
               = set_ws None (match ws w1 with
                              | Some j => close j w1
                              | None => w1
                              end)) by reflexivity.
  assert (Hclose : forall j,
             pingInterval (close j w1) = pingInterval w1
             /\ intervals (close j w1) = intervals w1
             /\ microphone (close j w1) = microphone w1
             /\ captures (close j w1) = captures w1
             /\ reconnectAttempts (close j w1) = reconnectAttempts w1
             /\ reconnectTimers (close j w1) = reconnectTimers w1
             /\ nth_error (sockets (close j w1)) j <> Some OPEN
             /\ nth_error (sockets (close j w1)) j <> Some CONNECTING).
  { intros j. unfold close.
    destruct (nth_error (sockets w1) j) as [[| | |]|] eqn:E; simpl;
      repeat split; auto; try congruence;
      rewrite nth_error_store
        by (apply nth_error_Some; congruence);
      discriminate. }
  assert (Hfields : pingInterval (disconnect w) = false
                    /\ intervals (disconnect w)
                       = (if pingInterval w then Nat.pred (intervals w)
                          else intervals w)
                    /\ microphone (disconnect w) = None
                    /\ captures (disconnect w) = captures w1
                    /\ ws (disconnect w) = None
                    /\ reconnectAttempts (disconnect w) = reconnectAttempts w
                    /\ reconnectTimers (disconnect w) = reconnectTimers w).
  { rewrite Hd. destruct (ws w1) as [j|]; simpl.
    - destruct (Hclose j) as (A & A' & B & B' & C & D & _).
      rewrite A, A', B, B', C, D. repeat split; congruence.
    - repeat split; congruence. }
  destruct Hfields as (F1 & F1' & F2 & F2' & F3 & F4 & F5).
  split; [assumption|]. split; [assumption|]. split; [assumption|].
  split; [|split; [assumption|split; [|split; [assumption|split;
          [assumption|]]]]].
  - intros k m Hk Hm. rewrite F2', Hcap, Hk, Hm.
    apply nth_error_store. apply nth_error_Some. congruence.
  - intros j Hj. rewrite Hd, Hws, Hws0, Hj. simpl.
    destruct (Hclose j) as (_ & _ & _ & _ & _ & _ & A & B). now split.
  - intros Hlt.
    assert (Hleb : (CONFIG.MAX_RECONNECT_ATTEMPTS
                    <=? reconnectAttempts (disconnect w))%nat = false)
      by (apply Nat.leb_gt; lia).
    clear Hd. destruct (disconnect w) as
      [ws' mic' pl' sid' att' ping' st' socks' ints' tims' now' log'
       caps' res' acq'].
    simpl in *. subst ping' tims'.
    unfold onclose, attemptReconnect, stopPing, onReconnectTimeout, onopen.
    simpl. rewrite Hleb. simpl. split; [reflexivity|].
    split; [rewrite !count_snoc; simpl; lia|].
    rewrite length_store.
    split; [reflexivity|]. split; [|reflexivity].
    rewrite nth_error_app2 by (rewrite length_store; apply le_n).
    now rewrite length_store, Nat.sub_diag.
Qed.

Lemma disconnect_keeps_reconnect_loop_witness :
  let w := startListening MicrophoneCapture.granted
             (run (new 0) [Connect; SocketOpen 0]) in
  (ws w = Some O
   /\ microphone w = Some O
   /\ nth_error (captures w) 0
      = Some (MicrophoneCapture.mk true true MicrophoneCapture.null [])
   /\ (reconnectAttempts w < CONFIG.MAX_RECONNECT_ATTEMPTS)%nat)
  /\ nth_error (captures (disconnect w)) 0 = Some Spec.stopped
  /\ nth_error (sockets (disconnect w)) 0 <> Some OPEN
  /\ reconnectTimers (onclose 0 (disconnect w)) = S (reconnectTimers w)
  /\ Spec.count Spec.is_new_socket
       (log (run (disconnect w) [SocketClose 0; ReconnectTimeout]))
     = S (Spec.count Spec.is_new_socket (log (disconnect w))).
Proof.
  intros w.
  assert (H1 : ws w = Some O) by reflexivity.
  assert (H1' : microphone w = Some O) by reflexivity.
  assert (H1'' : nth_error (captures w) 0
                 = Some (MicrophoneCapture.mk true true
                           MicrophoneCapture.null [])) by reflexivity.
  assert (H2 : (reconnectAttempts w < CONFIG.MAX_RECONNECT_ATTEMPTS)%nat)
    by (vm_compute; lia).
  split; [repeat split; assumption|].
  pose proof (disconnect_keeps_reconnect_loop w 0) as
    (_ & _ & _ & Hcap & _ & Hsock & _ & _ & Hloop).
  split; [exact (Hcap O _ H1' H1'')|].
  split; [exact (proj1 (Hsock O H1))|].
  destruct (Hloop H2) as (L1 & L2 & _).
  split; [exact L1 | exact L2].
Defined.

(** C6, as stated, fails: after [disconnect()] of a connected session,
    the close event of its socket starts a reconnect delay, and a new
    socket is created when the delay ends; when it opens, the session is
    connected again and the heartbeat runs. *)
Lemma disconnect_is_followed_by_a_reconnect :
  let w := run (new 0) [Connect; SocketOpen 0] in
  sockets w = [OPEN]
  /\ reconnectTimers (run w [Disconnect; SocketClose 0]) = 1%nat
  /\ sockets (run w [Disconnect; SocketClose 0; ReconnectTimeout])
     = [CLOSED; CONNECTING]
  /\ open_socket
       (run w [Disconnect; SocketClose 0; ReconnectTimeout; SocketOpen 1])
     = Some 1%nat
  /\ pingInterval
       (run w [Disconnect; SocketClose 0; ReconnectTimeout; SocketOpen 1])
     = true
  /\ ~ Spec.disconnect_cancels_reconnect.
Proof.
  do 5 (split; [reflexivity|]).
  intros H.
  destruct (H (run (new 0) [Connect; SocketOpen 0]) O) as [_ H2].
  vm_compute in H2. discriminate H2.
Qed.

(** One round: a close event of the current socket, then the end of the
    reconnect delay if one was started. *)
Lemma failed_round_spec (w : t) (i : nat) :
  ws w = Some i ->
  reconnectTimers w = O ->
  let spent := (CONFIG.MAX_RECONNECT_ATTEMPTS <=? reconnectAttempts w)%nat in
  let gain := if spent then O else 1%nat in
  (exists j, ws (Spec.failed_round w) = Some j)
  /\ reconnectTimers (Spec.close_current w) = gain
  /\ reconnectTimers (Spec.failed_round w) = O
  /\ reconnectAttempts (Spec.failed_round w) = (reconnectAttempts w + gain)%nat
  /\ Spec.count (Spec.is_reconnect CONFIG.RECONNECT_DELAY_MS)
       (log (Spec.failed_round w))
     = (Spec.count (Spec.is_reconnect CONFIG.RECONNECT_DELAY_MS) (log w)
        + gain)%nat
  /\ Spec.count Spec.is_any_reconnect (log (Spec.failed_round w))
     = (Spec.count Spec.is_any_reconnect (log w) + gain)%nat
  /\ Spec.count Spec.is_new_socket (log (Spec.failed_round w))
     = (Spec.count Spec.is_new_socket (log w) + gain)%nat.
Proof.
  intros Hws Htim spent gain.
  destruct w as [ws' mic' pl' sid' att' ping' st' socks' ints' tims' now' log'
                 caps' res' acq'].
  cbn -[Nat.leb] in *. subst ws' tims'.
  unfold Spec.failed_round, Spec.close_current, onclose, attemptReconnect,
    onReconnectTimeout, stopPing.
  subst gain spent.
  destruct ping'; cbn -[Nat.leb Spec.count];
    destruct (CONFIG.MAX_RECONNECT_ATTEMPTS <=? att')%nat;
    cbn -[Nat.leb Spec.count];
    rewrite ?count_snoc; cbn -[Nat.leb Spec.count];
    repeat split; eauto; unfold Spec.count; lia.
Qed.

(** Rounds from a session that has used [a] attempts. *)
Lemma failed_rounds_spec (k : nat) (w : t) (i : nat) :
  ws w = Some i ->
  reconnectTimers w = O ->
  (reconnectAttempts w <= CONFIG.MAX_RECONNECT_ATTEMPTS)%nat ->
  let w' := Spec.failed_rounds k w in
  let total := Nat.min (reconnectAttempts w + k) CONFIG.MAX_RECONNECT_ATTEMPTS in
  (exists j, ws w' = Some j)
  /\ reconnectTimers w' = O
  /\ reconnectAttempts w' = total
  /\ Spec.count (Spec.is_reconnect CONFIG.RECONNECT_DELAY_MS) (log w')
     = (Spec.count (Spec.is_reconnect CONFIG.RECONNECT_DELAY_MS) (log w)
        + (total - reconnectAttempts w))%nat
  /\ Spec.count Spec.is_any_reconnect (log w')
     = (Spec.count Spec.is_any_reconnect (log w)
        + (total - reconnectAttempts w))%nat
  /\ Spec.count Spec.is_new_socket (log w')
     = (Spec.count Spec.is_new_socket (log w)
        + (total - reconnectAttempts w))%nat.
Proof.
  revert w i; induction k as [|k IH]; intros w i Hws Htim Hle; simpl.
  - rewrite Nat.add_0_r, Nat.min_l by lia.
    rewrite Nat.sub_diag, !Nat.add_0_r. eauto 10.
  - destruct (failed_round_spec w i Hws Htim)
      as ((j & Hj) & _ & Ht & Ha & Hc1 & Hc2 & Hc3).
    assert (Hle' : (reconnectAttempts (Spec.failed_round w)
                    <= CONFIG.MAX_RECONNECT_ATTEMPTS)%nat).
    { rewrite Ha.
      destruct (CONFIG.MAX_RECONNECT_ATTEMPTS <=? reconnectAttempts w)%nat
        eqn:E; [lia|]. apply Nat.leb_gt in E. lia. }
    destruct (IH (Spec.failed_round w) j Hj Ht Hle')
      as (Hw & Ht' & Ha' & Hd1 & Hd2 & Hd3).
    rewrite Ha', Hd1, Hd2, Hd3, Hc1, Hc2, Hc3, Ha.
    split; [exact Hw|]. split; [exact Ht'|].
    destruct (CONFIG.MAX_RECONNECT_ATTEMPTS <=? reconnectAttempts w)%nat
      eqn:E; [apply Nat.leb_le in E | apply Nat.leb_gt in E];
      unfold CONFIG.MAX_RECONNECT_ATTEMPTS in *; repeat split; lia.
Qed.

(** C7.  From a session whose reconnect counter is zero (as after an
    open), rounds in which the socket closes and the next attempt fails
    start one reconnect delay each, of the configured length, and create
    one socket each, up to five in all; from the fifth round on the
    counter is 5, and a further close event starts no delay. *)
Theorem five_reconnects_then_none (w : t) (i k : nat) :
  ws w = Some i ->
  reconnectAttempts w = O ->
  reconnectTimers w = O ->
  let w' := Spec.failed_rounds k w in
  Spec.count (Spec.is_reconnect CONFIG.RECONNECT_DELAY_MS) (log w')
  = (Spec.count (Spec.is_reconnect CONFIG.RECONNECT_DELAY_MS) (log w)
     + Nat.min k 5)%nat
  /\ Spec.count Spec.is_any_reconnect (log w')
     = (Spec.count Spec.is_any_reconnect (log w) + Nat.min k 5)%nat
  /\ Spec.count Spec.is_new_socket (log w')
     = (Spec.count Spec.is_new_socket (log w) + Nat.min k 5)%nat
  /\ reconnectAttempts w' = Nat.min k 5
  /\ ((5 <= k)%nat ->
      reconnectTimers (Spec.close_current w') = O
      /\ Spec.count Spec.is_any_reconnect (log (Spec.failed_round w'))
         = Spec.count Spec.is_any_reconnect (log w')
      /\ Spec.count Spec.is_new_socket (log (Spec.failed_round w'))
         = Spec.count Spec.is_new_socket (log w')).
Proof.
  intros Hws Hatt Htim w'.
  assert (Hle : (reconnectAttempts w <= CONFIG.MAX_RECONNECT_ATTEMPTS)%nat)
    by (rewrite Hatt; apply Nat.le_0_l).
  destruct (failed_rounds_spec k w i Hws Htim Hle)
    as ((j & Hj) & Ht & Ha & Hc1 & Hc2 & Hc3).
  fold w' in Hj, Ht, Ha, Hc1, Hc2, Hc3.
  rewrite Hatt in *. simpl in *. rewrite Nat.sub_0_r in *.
  change CONFIG.MAX_RECONNECT_ATTEMPTS with 5%nat in *.
  repeat (split; [assumption|]).
  intros Hk.
  destruct (failed_round_spec w' j Hj Ht)
    as (_ & Hg & _ & _ & _ & Hd2 & Hd3).
  rewrite Ha in Hg, Hd2, Hd3.
  rewrite Nat.min_r in Hg, Hd2, Hd3 by exact Hk.
  simpl in Hg, Hd2, Hd3. rewrite Nat.add_0_r in Hd2, Hd3.
  now repeat split.
Qed.

Lemma five_reconnects_then_none_witness :
  let w := run (new 0) [Connect; SocketOpen 0] in
  (ws w = Some O /\ reconnectAttempts w = O /\ reconnectTimers w = O
   /\ (5 <= 6)%nat)
  /\ Spec.count (Spec.is_reconnect CONFIG.RECONNECT_DELAY_MS)
       (log (Spec.failed_rounds 6 w))
     = (Spec.count (Spec.is_reconnect CONFIG.RECONNECT_DELAY_MS) (log w)
        + Nat.min 6 5)%nat
  /\ reconnectTimers (Spec.close_current (Spec.failed_rounds 6 w)) = O.
Proof.
  intros w.
  assert (H1 : ws w = Some O) by reflexivity.
  assert (H2 : reconnectAttempts w = O) by reflexivity.
  assert (H3 : reconnectTimers w = O) by reflexivity.
  assert (H4 : (5 <= 6)%nat) by lia.
  split; [repeat split; assumption|].
  pose proof (five_reconnects_then_none w 0 6 H1 H2 H3) as
    (Hc & _ & _ & _ & Hlast).
  split; [exact Hc|]. exact (proj1 (Hlast H4)).
Defined.

End Reconnection.

(** ** Exact rounding

    The operations of [float32ToInt16] lose nothing on the elements of a
    [Float32Array]: a binary32 mantissa has 24 bits, the factors have 16
    at most, and the product fits in the 53 bits of a number. *)

Section Rounding.
Variables prec emax : Z.

Lemma digits2_pos_size (p : positive) : digits2_pos p = Pos.size p.
Proof. induction p; simpl; congruence. Qed.

Lemma digits2_pos_bounds (p : positive) :
  2 ^ (Zpos (digits2_pos p) - 1) <= Zpos p < 2 ^ Zpos (digits2_pos p).
Proof.
  rewrite digits2_pos_size. split.
  - pose proof (Pos.size_le p) as H.
    assert (Zpos (2 ^ Pos.size p) <= Zpos p~0) by exact H.
    rewrite Pos2Z.inj_pow in H0.
    replace (Zpos (Pos.size p)) with (Zpos (Pos.size p) - 1 + 1) in H0 by lia.
    rewrite Z.pow_add_r in H0 by lia. lia.
  - pose proof (Pos.size_gt p) as H.
    assert (Zpos p < Zpos (2 ^ Pos.size p)) by exact H.
    now rewrite Pos2Z.inj_pow in H0.
Qed.

Lemma digits2_pos_unique (p : positive) (d : Z) :
  2 ^ (d - 1) <= Zpos p < 2 ^ d -> Zpos (digits2_pos p) = d.
Proof.
  intros [Hlo Hhi]. pose proof (digits2_pos_bounds p) as [Blo Bhi].
  assert (0 < d).
  { destruct (Z_lt_le_dec 0 d); auto.
    assert (2 ^ d <= 2 ^ 0) by (apply Z.pow_le_mono_r; lia). simpl in *. lia. }
  set (D := Zpos (digits2_pos p)) in *.
  destruct (Z_lt_le_dec D d).
  - assert (2 ^ D <= 2 ^ (d - 1)) by (apply Z.pow_le_mono_r; lia). lia.
  - destruct (Z_lt_le_dec d D); [|lia].
    assert (2 ^ d <= 2 ^ (D - 1)) by (apply Z.pow_le_mono_r; lia). lia.
Qed.

Lemma digits2_pos_shift (a p : positive) (k : Z) :
  0 <= k -> Zpos p = Zpos a * 2 ^ k ->
  Zpos (digits2_pos p) = Zpos (digits2_pos a) + k.
Proof.
  intros Hk Hp. apply digits2_pos_unique. rewrite Hp.
  pose proof (digits2_pos_bounds a) as [Blo Bhi].
  replace (Zpos (digits2_pos a) + k - 1) with (Zpos (digits2_pos a) - 1 + k) by lia.
  assert (0 < Zpos (digits2_pos a)) by lia.
  rewrite !Z.pow_add_r by lia.
  assert (0 < 2 ^ k) by (apply Z.pow_pos_nonneg; lia).
  split; nia.
Qed.

Lemma iter_pos_nat {A : Type} (f : A -> A) (p : positive) (x : A) :
  iter_pos f p x = Nat.iter (Pos.to_nat p) f x.
Proof.
  revert x; induction p as [p IH|p IH|]; intros x; cbn [iter_pos].
  - rewrite !IH, Pos2Nat.inj_xI.
    replace (S (2 * Pos.to_nat p)) with (S (Pos.to_nat p + Pos.to_nat p)) by lia.
    now rewrite Nat.iter_succ_r, Nat.iter_add.
  - rewrite !IH, Pos2Nat.inj_xO.
    replace (2 * Pos.to_nat p)%nat with (Pos.to_nat p + Pos.to_nat p)%nat by lia.
    now rewrite Nat.iter_add.
  - reflexivity.
Qed.

Lemma shr_1_even (z : Z) :
  0 <= z ->
  shr_1 (Build_shr_record (2 * z) false false) = Build_shr_record z false false.
Proof. intros Hz. destruct z as [|p|p]; simpl; auto; lia. Qed.

Lemma iter_shr_exact (n : nat) (z : Z) :
  0 <= z ->
  Nat.iter n shr_1 (Build_shr_record (z * 2 ^ Z.of_nat n) false false)
  = Build_shr_record z false false.
Proof.
  revert z; induction n as [|n IH]; intros z Hz.
  - simpl. now rewrite Z.mul_1_r.
  - rewrite Nat.iter_succ_r.
    replace (z * 2 ^ Z.of_nat (S n)) with (2 * (z * 2 ^ Z.of_nat n)).
    + rewrite shr_1_even. apply IH; auto.
      apply Z.mul_nonneg_nonneg; auto. apply Z.pow_nonneg. lia.
    + rewrite Nat2Z.inj_succ, Z.pow_succ_r by lia. ring.
Qed.

Lemma shr_exact (z : Z) (e k : Z) :
  0 <= z -> 0 <= k ->
  shr (Build_shr_record (z * 2 ^ k) false false) e k
  = (Build_shr_record z false false, e + k).
Proof.
  intros Hz Hk. unfold shr. destruct k as [|p|p]; try lia.
  - simpl. now rewrite Z.mul_1_r, Z.add_0_r.
  - rewrite iter_pos_nat.
    rewrite <- (positive_nat_Z p) at 1.
    now rewrite iter_shr_exact.
Qed.

(** A mantissa whose low bits are zero is rounded without loss. *)
Lemma binary_round_aux_exact (s : bool) (m a : positive) (e k : Z) :
  0 <= k ->
  Zpos m = Zpos a * 2 ^ k ->
  fexp prec emax (Zpos (digits2_pos a) + (e + k)) = e + k ->
  e + k <= emax - prec ->
  binary_round_aux prec emax s (Zpos m) e loc_Exact = S754_finite s a (e + k).
Proof.
  intros Hk Hm Hfexp Hmax.
  unfold binary_round_aux.
  assert (H1 : shr_fexp prec emax (Zpos m) e loc_Exact
               = (Build_shr_record (Zpos a) false false, e + k)).
  { unfold shr_fexp. simpl Zdigits2.
    rewrite (digits2_pos_shift a m k Hk Hm).
    replace (Zpos (digits2_pos a) + k + e) with (Zpos (digits2_pos a) + (e + k)) by lia.
    rewrite Hfexp. replace (e + k - e) with k by lia.
    simpl shr_record_of_loc. rewrite Hm. apply shr_exact; lia. }
  rewrite H1. simpl loc_of_shr_record. simpl round_nearest_even. simpl shr_m.
  assert (H2 : shr_fexp prec emax (Zpos a) (e + k) loc_Exact
               = (Build_shr_record (Zpos a) false false, e + k)).
  { unfold shr_fexp. simpl Zdigits2. rewrite Hfexp, Z.sub_diag. reflexivity. }
  rewrite H2. simpl shr_m.
  apply Z.leb_le in Hmax. now rewrite Hmax.
Qed.

Lemma Pos_iter_xO (m p : positive) :
  Zpos (Pos.iter xO m p) = Zpos m * 2 ^ Zpos p.
Proof.
  induction p as [|p IH] using Pos.peano_ind.
  - simpl. lia.
  - rewrite Pos.iter_succ, Pos2Z.inj_succ, Z.pow_succ_r by lia.
    rewrite Pos2Z.inj_xO, IH. ring.
Qed.

(** A mantissa of at most [prec] bits is normalised without loss. *)
Lemma binary_round_exact (s : bool) (m : positive) (e : Z) :
  let d := Zpos (digits2_pos m) in
  d <= prec ->
  emin prec emax <= d + e - prec <= emax - prec ->
  exists M : positive,
    binary_round prec emax s m e = S754_finite s M (d + e - prec)
    /\ Zpos M = Zpos m * 2 ^ (prec - d)
    /\ Zpos (digits2_pos M) = prec.
Proof.
  intros d Hd Hrange.
  assert (Hf : fexp prec emax (d + e) = d + e - prec) by (unfold fexp; lia).
  unfold binary_round, shl_align. fold d. rewrite Hf.
  destruct (d + e - prec - e) as [|p|p] eqn:E; try lia.
  - exists m. assert (Hp : prec = d) by lia.
    replace (prec - d) with 0 by lia. rewrite Z.mul_1_r.
    repeat split; auto.
    replace (d + e - prec) with (e + 0) by lia.
    apply binary_round_aux_exact; try lia.
    fold d. unfold fexp in *. lia.
  - exists (Pos.iter xO m p).
    assert (HM : Zpos (Pos.iter xO m p) = Zpos m * 2 ^ (prec - d)).
    { rewrite Pos_iter_xO. f_equal. f_equal. lia. }
    assert (HD : Zpos (digits2_pos (Pos.iter xO m p)) = prec).
    { rewrite (digits2_pos_shift m _ (prec - d)) by (auto; lia). fold d. lia. }
    repeat split; auto.
    replace (d + e - prec) with (d + e - prec + 0) at 2 by lia.
    apply binary_round_aux_exact; try lia.
    rewrite HD. unfold fexp in *. lia.
Qed.

(** A longer mantissa whose low bits are zero is shortened without
    loss. *)
Lemma binary_round_shorten (s : bool) (m a : positive) (e k : Z) :
  0 <= k ->
  Zpos m = Zpos a * 2 ^ k ->
  Zpos (digits2_pos a) = prec ->
  emin prec emax <= e + k <= emax - prec ->
  binary_round prec emax s m e = S754_finite s a (e + k).
Proof.
  intros Hk Hm Ha Hrange.
  pose proof (digits2_pos_shift a m k Hk Hm) as Hd. rewrite Ha in Hd.
  assert (Hf : fexp prec emax (Zpos (digits2_pos m) + e) = e + k)
    by (unfold fexp; lia).
  unfold binary_round, shl_align. rewrite Hf.
  destruct (e + k - e) as [|p|p] eqn:E; try lia;
    apply binary_round_aux_exact; auto; try lia;
    rewrite Ha; unfold fexp; lia.
Qed.

End Rounding.

Section Widen.
Import JS.

(** The bounds a valid binary32 number meets. *)
Lemma bounded32 (m : positive) (e : Z) :
  bounded 24 128 m e = true ->
  Zpos (digits2_pos m) <= 24 /\ -149 <= e <= 104.
Proof.
  unfold bounded, canonical_mantissa, fexp, emin.
  intros H. apply andb_true_iff in H. destruct H as [H1 H2].
  apply Z.eqb_eq in H1. apply Z.leb_le in H2. lia.
Qed.

(** Reading a binary32 element as a number keeps its value: the
    mantissa is shifted to 53 bits. *)
Lemma widen_finite (s : bool) (m : positive) (e : Z) :
  bounded 24 128 m e = true ->
  let d := Zpos (digits2_pos m) in
  exists M : positive,
    widen (S754_finite s m e) = S754_finite s M (d + e - 53)
    /\ Zpos M = Zpos m * 2 ^ (53 - d)
    /\ Zpos (digits2_pos M) = 53.
Proof.
  intros Hb d. destruct (bounded32 m e Hb) as [Hd He]. fold d in Hd.
  assert (Hd0 : 0 < d) by (unfold d; lia).
  apply (binary_round_exact 53 1024 s m e); fold d; unfold emin; lia.
Qed.

End Widen.

Section Scale.
Import JS.

Lemma digits2_pos_le (p : positive) (d : Z) :
  0 <= d -> Zpos p < 2 ^ d -> Zpos (digits2_pos p) <= d.
Proof.
  intros Hd Hp. pose proof (digits2_pos_bounds p) as [Blo _].
  destruct (Z_lt_le_dec d (Zpos (digits2_pos p))); [|lia].
  assert (2 ^ d <= 2 ^ (Zpos (digits2_pos p) - 1))
    by (apply Z.pow_le_mono_r; lia).
  lia.
Qed.

Lemma digits2_pos_ge (p : positive) (d : Z) :
  2 ^ (d - 1) <= Zpos p -> d <= Zpos (digits2_pos p).
Proof.
  intros Hp. pose proof (digits2_pos_bounds p) as [_ Bhi].
  destruct (Z_lt_le_dec (Zpos (digits2_pos p)) d); [|lia].
  assert (2 ^ Zpos (digits2_pos p) <= 2 ^ (d - 1))
    by (apply Z.pow_le_mono_r; lia).
  lia.
Qed.

(** The product of a number whose mantissa ends in [j] zeros by a
    constant whose mantissa ends in [jk] zeros is exact when the product
    of the significant parts fits in 53 bits. *)
Lemma mul_exact (s : bool) (M m KM K : positive) (E KE j jk : Z) :
  0 <= j -> Zpos M = Zpos m * 2 ^ j ->
  0 <= jk -> Zpos KM = Zpos K * 2 ^ jk ->
  let dp := Zpos (digits2_pos (m * K)) in
  dp <= 53 ->
  0 <= j + jk - (53 - dp) ->
  -1074 <= E + KE + (j + jk - (53 - dp)) <= 971 ->
  exists a : positive,
    mul (S754_finite s M E) (S754_finite false KM KE)
    = S754_finite s a (E + KE + (j + jk - (53 - dp)))
    /\ Zpos a = Zpos (m * K) * 2 ^ (53 - dp).
Proof.
  intros Hj HM Hjk HKM dp Hdp Hk Hrange.
  assert (Hpos : 0 < Zpos (m * K) * 2 ^ (53 - dp))
    by (apply Z.mul_pos_pos; [lia | apply Z.pow_pos_nonneg; lia]).
  exists (Z.to_pos (Zpos (m * K) * 2 ^ (53 - dp))).
  rewrite Z2Pos.id by exact Hpos.
  split; [|reflexivity].
  unfold mul, SFmul. rewrite xorb_false_r.
  apply binary_round_aux_exact.
  - exact Hk.
  - rewrite Z2Pos.id by exact Hpos.
    rewrite Pos2Z.inj_mul, HM, HKM, Pos2Z.inj_mul.
    replace (Zpos m * 2 ^ j * (Zpos K * 2 ^ jk))
      with (Zpos m * Zpos K * (2 ^ j * 2 ^ jk)) by ring.
    rewrite <- Z.pow_add_r by lia.
    set (k := j + jk - (53 - dp)) in *.
    replace (j + jk) with ((53 - dp) + k) by (unfold k; lia).
    rewrite Z.pow_add_r by lia. ring.
  - assert (HD : Zpos (digits2_pos (Z.to_pos (Zpos (m * K) * 2 ^ (53 - dp))))
                 = dp + (53 - dp)).
    { apply digits2_pos_shift; [lia|]. now rewrite Z2Pos.id by exact Hpos. }
    rewrite HD. unfold fexp, emin, prec, emax. lia.
  - unfold prec, emax. lia.
Qed.

Lemma truncate_scaled (s : bool) (a : positive) (n t e : Z) :
  0 < n -> 0 <= t -> e < 0 -> Zpos a = n * 2 ^ t ->
  truncate (S754_finite s a (e - t))
  = if s then - (n / 2 ^ (- e)) else n / 2 ^ (- e).
Proof.
  intros Hn Ht He Ha. unfold truncate.
  destruct (e - t) as [|p|p] eqn:E; try lia.
  replace (Zpos p) with (- e + t) by lia.
  rewrite Ha, Z.pow_add_r by lia.
  rewrite Z.div_mul_cancel_r; auto.
  - apply Z.pow_nonzero; lia.
  - apply Z.pow_nonzero; lia.
Qed.

(** The scaling step on a sample below 1 in magnitude. *)
Lemma scale_exact (s : bool) (m K KM : positive) (e KE jk : Z) :
  bounded 24 128 m e = true ->
  Zpos (digits2_pos m) + e <= 0 ->
  2 ^ 14 <= Zpos K < 2 ^ 16 ->
  0 <= jk <= 52 -> Zpos KM = Zpos K * 2 ^ jk -> KE = - jk ->
  truncate (mul (widen (S754_finite s m e)) (S754_finite false KM KE))
  = if s then - (Zpos m * Zpos K / 2 ^ (- e))
    else Zpos m * Zpos K / 2 ^ (- e).
Proof.
  intros Hb Hsmall HK Hjk HKM HKE.
  destruct (bounded32 m e Hb) as [Hd He].
  destruct (widen_finite s m e Hb) as (M & HW & HM & HD).
  set (d := Zpos (digits2_pos m)) in *.
  assert (Hd0 : 0 < d) by (unfold d; lia).
  pose proof (digits2_pos_bounds m) as [Blo Bhi]. fold d in Blo, Bhi.
  set (dp := Zpos (digits2_pos (m * K))).
  assert (Hdp1 : dp <= d + 16).
  { apply digits2_pos_le; [lia|]. rewrite Pos2Z.inj_mul, Z.pow_add_r by lia.
    nia. }
  assert (Hdp2 : d + 14 <= dp).
  { apply digits2_pos_ge. rewrite Pos2Z.inj_mul.
    replace (d + 14 - 1) with ((d - 1) + 14) by lia.
    rewrite Z.pow_add_r by lia.
    assert (0 < 2 ^ (d - 1)) by (apply Z.pow_pos_nonneg; lia). nia. }
  destruct (mul_exact s M m KM K (d + e - 53) KE (53 - d) jk)
    as (a & Hmul & Ha); try lia; try assumption; fold dp; try lia.
  rewrite HW, Hmul. fold dp.
  replace (d + e - 53 + KE + (53 - d + jk - (53 - dp)))
    with (e - (53 - dp)) by lia.
  rewrite (truncate_scaled s a (Zpos (m * K)) (53 - dp) e); try lia.
  - now rewrite Pos2Z.inj_mul.
  - fold dp in Ha. exact Ha.
Qed.

End Scale.

Section Sample.
Import JS.

Lemma ToInt16_in_range (x : number) :
  -32768 <= truncate x <= 32767 -> ToInt16 x = truncate x.
Proof.
  intros H. unfold ToInt16.
  destruct (Z_lt_le_dec (truncate x) 0) as [Hneg|Hpos].
  - replace (truncate x mod 65536) with (truncate x + 65536).
    + destruct (32768 <=? truncate x + 65536) eqn:E; [lia|].
      apply Z.leb_gt in E. lia.
    + apply Z.mod_unique with (q := -1); lia.
  - rewrite Z.mod_small by lia.
    destruct (32768 <=? truncate x) eqn:E; [|reflexivity].
    apply Z.leb_le in E. lia.
Qed.

Lemma pos_compare_ge (a b : positive) :
  (Zpos a <= Zpos b) ->
  Pos.compare_cont Eq a b = Lt \/ Pos.compare_cont Eq a b = Eq.
Proof.
  intros H. change (Pos.compare_cont Eq a b) with (Pos.compare a b).
  destruct (Pos.compare_spec a b); auto. lia.
Qed.

(** Clamping leaves a number below 1 in magnitude as it is. *)
Lemma clamp_small (s : bool) (M : positive) (E : Z) :
  E < -52 ->
  Math_max (of_Z (-1)) (Math_min (of_Z 1) (S754_finite s M E))
  = S754_finite s M E.
Proof.
  intros HE.
  change (of_Z 1) with (S754_finite false 4503599627370496 (-52)).
  change (of_Z (-1)) with (S754_finite true 4503599627370496 (-52)).
  assert (Hc : (-52 ?= E) = Gt) by (apply Z.compare_gt_iff; lia).
  unfold Math_min, Math_max, SFcompare.
  destruct s; rewrite ?Hc; cbn; rewrite ?Hc; reflexivity.
Qed.

(** Clamping replaces a number of magnitude 1 or more by 1 or -1. *)
Lemma clamp_big (s : bool) (M : positive) (E : Z) :
  Zpos (digits2_pos M) = 53 ->
  -52 <= E ->
  Math_max (of_Z (-1)) (Math_min (of_Z 1) (S754_finite s M E))
  = S754_finite s 4503599627370496 (-52).
Proof.
  intros HD HE.
  change (of_Z 1) with (S754_finite false 4503599627370496 (-52)).
  change (of_Z (-1)) with (S754_finite true 4503599627370496 (-52)).
  pose proof (digits2_pos_bounds M) as [Blo _]. rewrite HD in Blo.
  change (2 ^ (53 - 1)) with (Zpos 4503599627370496) in Blo.
  destruct (pos_compare_ge _ _ Blo) as [Hp|Hp];
    unfold Math_min, Math_max, SFcompare;
    destruct s; destruct (Z.compare_spec (-52) E) as [He|He|He]; try lia;
    rewrite ?Hp; cbn; rewrite <- ?He; cbn; rewrite ?Hp; try reflexivity.
Qed.

Import MicrophoneCapture.

Lemma sample_small (s : bool) (m : positive) (e : Z) :
  bounded 24 128 m e = true ->
  Zpos (digits2_pos m) + e <= 0 ->
  float32ToInt16_sample (widen (S754_finite s m e))
  = if s then - (Zpos m * 32768 / 2 ^ (- e))
    else Zpos m * 32767 / 2 ^ (- e).
Proof.
  intros Hb Hsmall.
  destruct (bounded32 m e Hb) as [Hd He].
  destruct (widen_finite s m e Hb) as (M & HW & HM & HD).
  pose proof (digits2_pos_bounds m) as [Blo Bhi].
  assert (Hlt : Zpos m < 2 ^ (- e)).
  { apply Z.lt_le_trans with (1 := Bhi). apply Z.pow_le_mono_r; lia. }
  assert (Hpow : 0 < 2 ^ (- e)) by (apply Z.pow_pos_nonneg; lia).
  unfold float32ToInt16_sample.
  rewrite HW, clamp_small by lia. rewrite <- HW.
  change (of_Z 0) with (S754_zero false).
  change (of_Z 32768) with (S754_finite false 4503599627370496 (-37)).
  change (of_Z 32767) with (S754_finite false 9006924376834048 (-38)).
  assert (Hltb : ltb (widen (S754_finite s m e)) (S754_zero false) = s)
    by (rewrite HW; now destruct s).
  rewrite Hltb.
  destruct s.
  - pose proof (scale_exact true m 32768 4503599627370496 e (-37) 37
                  Hb Hsmall) as Hs.
    rewrite ToInt16_in_range; rewrite Hs; try reflexivity; try lia.
    assert (0 <= Zpos m * 32768 / 2 ^ (- e)) by (apply Z.div_pos; lia).
    assert (Zpos m * 32768 / 2 ^ (- e) < 32768)
      by (apply Z.div_lt_upper_bound; lia).
    lia.
  - pose proof (scale_exact false m 32767 9006924376834048 e (-38) 38
                  Hb Hsmall) as Hs.
    rewrite ToInt16_in_range; rewrite Hs; try reflexivity; try lia.
    assert (0 <= Zpos m * 32767 / 2 ^ (- e)) by (apply Z.div_pos; lia).
    assert (Zpos m * 32767 / 2 ^ (- e) < 32767)
      by (apply Z.div_lt_upper_bound; lia).
    lia.
Qed.

Lemma sample_big (s : bool) (m : positive) (e : Z) :
  bounded 24 128 m e = true ->
  1 <= Zpos (digits2_pos m) + e ->
  float32ToInt16_sample (widen (S754_finite s m e))
  = if s then -32768 else 32767.
Proof.
  intros Hb Hbig.
  destruct (widen_finite s m e Hb) as (M & HW & HM & HD).
  unfold float32ToInt16_sample.
  rewrite HW, clamp_big by (auto; lia).
  destruct s; vm_compute; reflexivity.
Qed.

End Sample.

Section Exact.
Import JS.

Lemma Qtruncate_scaled (s : bool) (n : Z) (p : positive) :
  0 <= n ->
  Spec.Qtruncate (if s then (- n) # p else n # p)
  = if s then - (n / Zpos p) else n / Zpos p.
Proof.
  intros Hn. unfold Spec.Qtruncate. destruct s; simpl.
  - rewrite Z.quot_opp_l by lia. now rewrite Z.quot_div_nonneg by lia.
  - now rewrite Z.quot_div_nonneg by lia.
Qed.

Lemma clamp_inside (q : Q) :
  (-1 # 1 < q)%Q -> (q < 1 # 1)%Q -> Spec.clamp q = q.
Proof.
  intros Hlo Hhi. unfold Spec.clamp, Qmin, Qmax, GenericMinMax.gmin,
    GenericMinMax.gmax.
  rewrite (proj1 (Qgt_alt _ _) Hhi).
  now rewrite (proj1 (Qlt_alt _ _) Hlo).
Qed.

Lemma pcm16_small (s : bool) (m : positive) (e : Z) :
  Zpos (digits2_pos m) + e <= 0 ->
  Spec.pcm16 (Q_of_finite s m e)
  = if s then - (Zpos m * 32768 / 2 ^ (- e))
    else Zpos m * 32767 / 2 ^ (- e).
Proof.
  intros Hsmall.
  pose proof (digits2_pos_bounds m) as [Blo Bhi].
  destruct e as [|p|p]; try lia.
  assert (Hlt : Zpos m < Zpos (2 ^ p)).
  { rewrite Pos2Z.inj_pow. apply Z.lt_le_trans with (1 := Bhi).
    apply Z.pow_le_mono_r; lia. }
  assert (Hpow : 2 ^ (- Zneg p) = Zpos (2 ^ p * 1)).
  { rewrite Pos.mul_1_r, Pos2Z.inj_pow. reflexivity. }
  rewrite Hpow.
  unfold Spec.pcm16, Q_of_finite.
  destruct s.
  - rewrite clamp_inside by (unfold Qlt; simpl; lia).
    destruct (Qlt_le_dec (- (Zpos m # 2 ^ p)) (0 # 1)) as [H|H].
    + exact (Qtruncate_scaled true (Zpos m * 32768) (2 ^ p * 1) ltac:(lia)).
    + unfold Qle in H. simpl in H. lia.
  - rewrite clamp_inside by (unfold Qlt; simpl; lia).
    destruct (Qlt_le_dec (Zpos m # 2 ^ p) (0 # 1)) as [H|H].
    + unfold Qlt in H. simpl in H. lia.
    + exact (Qtruncate_scaled false (Zpos m * 32767) (2 ^ p * 1) ltac:(lia)).
Qed.

Lemma clamp_above (q : Q) : (1 # 1 <= q)%Q -> Spec.clamp q = (1 # 1)%Q.
Proof.
  intros H. unfold Spec.clamp, Qmin, Qmax, GenericMinMax.gmin,
    GenericMinMax.gmax.
  destruct (Qcompare (1 # 1) q) eqn:E.
  - reflexivity.
  - reflexivity.
  - apply Qgt_alt in E. apply Qlt_not_le in E. contradiction.
Qed.

Lemma clamp_below (q : Q) : (q <= -1 # 1)%Q -> Spec.clamp q = (-1 # 1)%Q.
Proof.
  intros H. unfold Spec.clamp, Qmin, Qmax, GenericMinMax.gmin,
    GenericMinMax.gmax.
  assert (E : Qcompare (1 # 1) q = Gt).
  { apply Qgt_alt. apply Qle_lt_trans with (1 := H). reflexivity. }
  rewrite E.
  destruct (Qcompare (-1 # 1) q) eqn:F.
  - reflexivity.
  - apply Qlt_alt in F. apply Qlt_not_le in F. contradiction.
  - reflexivity.
Qed.

Lemma pcm16_big (s : bool) (m : positive) (e : Z) :
  1 <= Zpos (digits2_pos m) + e ->
  Spec.pcm16 (Q_of_finite s m e) = if s then -32768 else 32767.
Proof.
  intros Hbig.
  pose proof (digits2_pos_bounds m) as [Blo Bhi].
  assert (Hone : (1 # 1 <= Q_of_finite false m e)%Q).
  { unfold Q_of_finite, Qle. destruct e as [|p|p]; cbn [Qnum Qden].
    - lia.
    - assert (0 < 2 ^ Zpos p) by (apply Z.pow_pos_nonneg; lia). nia.
    - rewrite Pos2Z.inj_pow, Z.mul_1_l, Z.mul_1_r.
      apply Z.le_trans with (2 := Blo).
      apply Z.pow_le_mono_r; lia. }
  unfold Spec.pcm16.
  destruct s.
  - rewrite clamp_below; [reflexivity|].
    unfold Q_of_finite in *. 
    apply Qopp_le_compat in Hone. exact Hone.
  - rewrite clamp_above by exact Hone. reflexivity.
Qed.

End Exact.

(** ** Scaling factors *)

Section Scaling.
Import JS.

(** One element of a [Float32Array] is converted as its exact value is. *)
Lemma float32ToInt16_sample_exact (y : float32) :
  valid_binary 24 128 y = true ->
  MicrophoneCapture.float32ToInt16_sample (widen y) = Spec.exact_sample y.
Proof.
  intros Hvalid. destruct y as [s|s| |s m e].
  - destruct s; vm_compute; reflexivity.
  - destruct s; vm_compute; reflexivity.
  - vm_compute; reflexivity.
  - simpl in Hvalid. unfold Spec.exact_sample, value.
    destruct (Z_le_gt_dec (Zpos (digits2_pos m) + e) 0) as [Hsmall|Hbig].
    + now rewrite sample_small, pcm16_small.
    + now rewrite sample_big, pcm16_big by (assumption || lia).
Qed.

(** C3.  Every sample of the buffer is clamped to [-1, 1], scaled by
    32768 if it is negative and by 32767 otherwise, and stored without
    its fraction; no rounding and no wrap-around occurs on the way. *)
Theorem float32ToInt16_clamps_and_scales (buffer : Float32Array) :
  Forall (fun y => valid_binary 24 128 y = true) buffer ->
  MicrophoneCapture.float32ToInt16 buffer = map Spec.exact_sample buffer.
Proof.
  intros Hvalid. rewrite float32ToInt16_map.
  apply map_ext_in. intros y Hy.
  apply float32ToInt16_sample_exact.
  rewrite Forall_forall in Hvalid. now apply Hvalid.
Qed.

Lemma float32ToInt16_clamps_and_scales_witness :
  let third := narrow (div (of_Z (-1)) (of_Z 3)) in
  let buffer := [narrow (of_Z 1); third; narrow (of_Z (-2)); S754_nan] in
  Forall (fun y => valid_binary 24 128 y = true) buffer
  /\ MicrophoneCapture.float32ToInt16 buffer
     = map Spec.exact_sample buffer.
Proof.
  intros third buffer.
  assert (H : Forall (fun y => valid_binary 24 128 y = true) buffer)
    by (repeat constructor).
  split; [exact H|].
  exact (float32ToInt16_clamps_and_scales buffer H).
Defined.

(** C3, as stated, fails: the sample -1.0 is stored as -32768, which is
    -1 scaled by 32768; scaled by 32767 it would be stored as -32767. *)
Lemma negative_samples_scale_by_32768 :
  MicrophoneCapture.float32ToInt16 [narrow (of_Z (-1))] = [-32768]
  /\ Spec.swapped_float32ToInt16_sample (widen (narrow (of_Z (-1))))
     = -32767
  /\ ~ Spec.scaled_32767_below_zero.
Proof.
  do 2 (split; [vm_compute; reflexivity|]).
  intros H. specialize (H (narrow (of_Z (-1)))).
  vm_compute in H. discriminate H.
Qed.

End Scaling.

(** ** Decoding, then encoding *)

Section RoundTrip.
Import JS.

(** Dividing a number by 32768 lowers its exponent by 15. *)
Lemma div_32768_exact (s : bool) (M : positive) (E : Z) :
  Zpos (digits2_pos M) = 53 ->
  -1000 <= E <= 900 ->
  div (S754_finite s M E) (of_Z 32768) = S754_finite s M (E - 15).
Proof.
  intros HD HE.
  change (of_Z 32768) with (S754_finite false 4503599627370496 (-37)).
  unfold div, SFdiv, SFdiv_core_binary.
  cbn [Zdigits2]. rewrite HD.
  change (Zpos (digits2_pos 4503599627370496)) with 53.
  replace (53 + E - (53 + -37)) with (E + 37) by lia.
  replace (E - -37) with (E + 37) by lia.
  assert (Hf : fexp prec emax (E + 37) = E - 16)
    by (unfold fexp, emin, prec, emax; lia).
  rewrite Hf.
  replace (Z.min (E - 16) (E + 37)) with (E - 16) by lia.
  replace (E + 37 - (E - 16)) with 53 by lia.
  rewrite Z.shiftl_mul_pow2 by lia.
  pose proof (Z_div_mod (Zpos M * 2 ^ 53) (Zpos 4503599627370496)
                ltac:(lia)) as Hdiv.
  destruct (Z.div_eucl (Zpos M * 2 ^ 53) (Zpos 4503599627370496))
    as [q r].
  change (2 ^ 53) with 9007199254740992 in Hdiv.
  assert (Hq : q = Zpos M~0) by lia.
  assert (Hr : r = 0) by lia.
  subst q r.
  change (new_location (Zpos 4503599627370496) 0) with loc_Exact.
  rewrite xorb_false_r.
  replace (E - 15) with (E - 16 + 1) by lia.
  apply binary_round_aux_exact; try lia.
  - rewrite HD. unfold fexp, emin, prec, emax. lia.
  - unfold prec, emax. lia.
Qed.

(** The decoder on a 16-bit value other than 0: the sample has the
    sign of the value and its magnitude divided by 32768. *)
Lemma decode_sample_exact (s : bool) (n : positive) :
  Zpos n <= 32768 ->
  let dv := Zpos (digits2_pos n) in
  exists a : positive,
    AudioPlayer.decode_sample (of_Z (if s then Zneg n else Zpos n))
    = S754_finite s a (dv - 39)
    /\ Zpos a = Zpos n * 2 ^ (24 - dv)
    /\ Zpos (digits2_pos a) = 24.
Proof.
  intros Hn dv.
  assert (Hdv : 0 < dv <= 16).
  { split; [unfold dv; lia|].
    apply digits2_pos_le; [lia|]. change (2 ^ 16) with 65536. lia. }
  destruct (binary_round_exact prec emax s n 0) as (M & HM1 & HM2 & HM3);
    fold dv; try (unfold emin, prec, emax; lia).
  assert (Hof : of_Z (if s then Zneg n else Zpos n)
                = S754_finite s M (dv + 0 - prec)).
  { destruct s; exact HM1. }
  assert (Hpos : 0 < Zpos n * 2 ^ (24 - dv))
    by (apply Z.mul_pos_pos; [lia | apply Z.pow_pos_nonneg; lia]).
  exists (Z.to_pos (Zpos n * 2 ^ (24 - dv))).
  rewrite Z2Pos.id by exact Hpos.
  assert (HD : Zpos (digits2_pos (Z.to_pos (Zpos n * 2 ^ (24 - dv)))) = 24).
  { assert (Hs : Zpos (digits2_pos (Z.to_pos (Zpos n * 2 ^ (24 - dv))))
                 = dv + (24 - dv)).
    { apply digits2_pos_shift; [lia|]. now rewrite Z2Pos.id by exact Hpos. }
    lia. }
  split; [|split; [reflexivity | exact HD]].
  unfold AudioPlayer.decode_sample. rewrite Hof.
  unfold prec in *.
  rewrite div_32768_exact by (auto; lia).
  unfold narrow.
  replace (dv - 39) with (dv + 0 - 53 - 15 + 29) by lia.
  apply binary_round_shorten; [lia | | exact HD | unfold emin; lia].
  rewrite Z2Pos.id by exact Hpos. rewrite HM2. fold dv.
  rewrite <- Z.mul_assoc, <- Z.pow_add_r by lia.
  f_equal. f_equal. lia.
Qed.

Lemma decoded_sample_valid (a : positive) (dv : Z) :
  Zpos (digits2_pos a) = 24 -> 0 < dv <= 16 ->
  bounded 24 128 a (dv - 39) = true.
Proof.
  intros Ha Hdv. unfold bounded, canonical_mantissa.
  rewrite Ha. apply andb_true_iff. split.
  - apply Z.eqb_eq. unfold fexp, emin. lia.
  - apply Z.leb_le. lia.
Qed.

Lemma roundtrip_nonzero (s : bool) (n : positive) :
  Zpos n <= (if s then 32768 else 32767) ->
  let v := if s then Zneg n else Zpos n in
  (exists q, value (AudioPlayer.decode_sample (of_Z v)) = Some q
             /\ (q == v # 32768)%Q)
  /\ MicrophoneCapture.float32ToInt16_sample
       (widen (AudioPlayer.decode_sample (of_Z v)))
     = if s then v else v * 32767 / 32768.
Proof.
  intros Hn v.
  assert (Hn' : Zpos n <= 32768) by (destruct s; lia).
  destruct (decode_sample_exact s n Hn') as (a & Hd & Ha & HD).
  set (dv := Zpos (digits2_pos n)) in *.
  assert (Hdv : 0 < dv <= 16).
  { split; [unfold dv; lia|].
    apply digits2_pos_le; [lia|]. change (2 ^ 16) with 65536. lia. }
  fold v in Hd. rewrite Hd.
  assert (Hpow : 0 < 2 ^ (24 - dv)) by (apply Z.pow_pos_nonneg; lia).
  assert (Hsplit : 2 ^ (39 - dv) = 32768 * 2 ^ (24 - dv)).
  { replace (39 - dv) with (15 + (24 - dv)) by lia.
    now rewrite Z.pow_add_r by lia. }
  split.
  - exists (Q_of_finite s a (dv - 39)). split; [reflexivity|].
    unfold Q_of_finite.
    destruct (dv - 39) as [|p|p] eqn:E; try lia.
    assert (Hp : Zpos (2 ^ p) = 2 ^ (39 - dv)).
    { rewrite Pos2Z.inj_pow. f_equal. lia. }
    unfold v. destruct s; unfold Qeq; cbn [Qnum Qden Qopp];
      rewrite Hp, Hsplit, Ha; change (Zneg n) with (- Zpos n); ring.
  - pose proof (decoded_sample_valid a dv HD Hdv) as Hvalid.
    destruct (Z_le_gt_dec dv 15) as [Hsmall|Hbig].
    + rewrite sample_small by (auto; lia).
      replace (- (dv - 39)) with (39 - dv) by lia.
      rewrite Hsplit, Ha. unfold v. destruct s.
      * replace (Zpos n * 2 ^ (24 - dv) * 32768)
          with (Zpos n * (32768 * 2 ^ (24 - dv))) by ring.
        rewrite Z.div_mul by lia. reflexivity.
      * replace (Zpos n * 2 ^ (24 - dv) * 32767)
          with (Zpos n * 32767 * 2 ^ (24 - dv)) by ring.
        rewrite Z.div_mul_cancel_r by lia. reflexivity.
    + rewrite sample_big by (auto; lia).
      assert (dv = 16) by lia.
      assert (32768 <= Zpos n).
      { pose proof (digits2_pos_bounds n) as [Blo _]. fold dv in Blo.
        replace dv with 16 in Blo. exact Blo. }
      unfold v. destruct s; [|lia].
      replace (Zneg n) with (- Zpos n) by reflexivity. lia.
Qed.

(** C10.  For every 16-bit value [v], the decoder yields the sample
    [v / 32768]; encoding that sample yields [v] again when [v <= 0], and
    [floor (v * 32767 / 32768)], which is less than [v], when [v > 0]. *)
Theorem decode_then_encode (v : Z) :
  -32768 <= v <= 32767 ->
  (exists q, value (AudioPlayer.decode_sample (of_Z v)) = Some q
             /\ (q == v # 32768)%Q)
  /\ MicrophoneCapture.float32ToInt16 (AudioPlayer.decode [v])
     = [if v <=? 0 then v else v * 32767 / 32768]
  /\ (0 < v -> v * 32767 / 32768 < v).
Proof.
  intros Hv.
  rewrite decode_map, float32ToInt16_map. cbn [map].
  split; [|split].
  - destruct v as [|n|n].
    + exists (0 # 1)%Q. split; reflexivity.
    + exact (proj1 (roundtrip_nonzero false n ltac:(lia))).
    + exact (proj1 (roundtrip_nonzero true n ltac:(lia))).
  - f_equal. destruct v as [|n|n].
    + reflexivity.
    + exact (proj2 (roundtrip_nonzero false n ltac:(lia))).
    + exact (proj2 (roundtrip_nonzero true n ltac:(lia))).
  - intros Hpos. apply Z.div_lt_upper_bound; lia.
Qed.

Lemma decode_then_encode_witness :
  -32768 <= 16384 <= 32767
  /\ MicrophoneCapture.float32ToInt16 (AudioPlayer.decode [16384])
     = [if 16384 <=? 0 then 16384 else 16384 * 32767 / 32768].
Proof.
  assert (H : -32768 <= 16384 <= 32767) by lia.
  split; [exact H|].
  exact (proj1 (proj2 (decode_then_encode 16384 H))).
Defined.

End RoundTrip.
